(** * netgear-go: the device-list decoder, the snapshot differ and the
      polling engine

    A shallow embedding of [client.go] (the record decoder
    [parseDevicesString] and the two remote operations [Login] and
    [Devices]), of [listener.go] (the differ [getChangedDevices] and the
    polling loop of [OnDeviceChanged]) and of the listener of
    [cmd/netgear-listener/main.go], with the properties the specification
    states about them and further properties of the code.

    Go values are modelled as follows.
    - [string] is Go's [string]: a sequence of 8-bit bytes ([ascii]).
    - [byte] is [ascii]; a [[]byte] such as [net.HardwareAddr] or [net.IP]
      is a [list byte], the nil slice being [[]].
    - [int] is [Z]; the only integers the code builds come out of
      [strconv.Atoi], which range-checks them, so no wrap-around occurs.
    - a function returning [(T, error)] returns a [result T]; a run-time
      panic (the third way a Go call can end) is the constructor [Panic].
    - the [map[string]bool] of the differ is a [gmap string bool]. *)

From Stdlib Require Import ZArith Ascii String List Lia.
From stdpp Require Import gmap strings list fin_maps.

Local Open Scope string_scope.
Local Open Scope list_scope.

#[local] Set Warnings "-clear-no-such-hyp".

Abbreviation byte := ascii.

(** What a [*strconv.NumError] wraps: [ErrSyntax] or [ErrRange]. *)
Inductive NumErr := ErrSyntax | ErrRange.

(** The errors the client can hand to its caller.  The decoder builds the
    last three: a [fmt.Errorf] carrying the offending device substring, the
    [*net.AddrError] of [net.ParseMAC] and the [*strconv.NumError] of
    [strconv.Atoi].  The first four come from the SOAP round trip. *)
Inductive error :=
| TransportError (cause : string)
| DecodeError (cause : string)
| AuthFailed (code : Z)
| FetchFailed (code : Z)
| MalformedRecord (devStr : string)
| InvalidAddress (addr : string)
| InvalidNumber (num : string) (why : NumErr).

Inductive result (A : Type) :=
| Ok (a : A)
| Err (e : error)
| Panic.
Arguments Ok {A} a.
Arguments Err {A} e.
Arguments Panic {A}.

(** Go byte-string helpers: [s[n:]], [s[:n]] and the code of a byte. *)
Fixpoint skip (n : nat) (s : string) : string :=
  match n, s with
  | O, _ => s
  | S n', String _ r => skip n' r
  | S _, EmptyString => EmptyString
  end.

Fixpoint upto (n : nat) (s : string) : string :=
  match n, s with
  | S n', String c r => String c (upto n' r)
  | _, _ => EmptyString
  end.

Definition code (c : byte) : Z := Z.of_N (N_of_ascii c).

(** Whether the byte [c] occurs in [s]. *)
Fixpoint has (c : byte) (s : string) : bool :=
  match s with
  | EmptyString => false
  | String c' r => Ascii.eqb c' c || has c r
  end.

(** [byte(n)]: the low eight bits. *)
Definition byte_of (n : Z) : byte := ascii_of_N (Z.to_N (n mod 256)).

(** * Go's standard library, as far as the client calls it

    [strings.Split], [strconv.Atoi], [net.ParseMAC], [net.ParseIP] (which
    parses with [netip.ParseAddr]) and [net.HardwareAddr.String] are
    written after their Go implementations, for a platform whose [int] has
    64 bits. *)

(** ** Package [strings] *)
Module Strings.

(** [strings.Split(s, sep)] for a one-byte separator, which is how the
    decoder calls it (["@"] and [";"]): the pieces between the separators,
    one more piece than there are separators. *)
Fixpoint Split (s : string) (sep : byte) : list string :=
  match s with
  | EmptyString => [EmptyString]
  | String c r =>
      if Ascii.eqb c sep then EmptyString :: Split r sep
      else match Split r sep with
           | piece :: pieces => String c piece :: pieces
           | [] => [String c EmptyString]
           end
  end.

End Strings.

(** ** Package [strconv] *)
Module Strconv.

Definition isDigit (c : byte) : bool :=
  ((code "0" <=? code c) && (code c <=? code "9"))%Z.

Definition maxUint64 : Z := 2 ^ 64 - 1.

(** The digit loop of [ParseUint(s, 10, 64)]: a byte that is no decimal
    digit is a syntax error, a value that leaves [uint64] a range error,
    whichever the scan meets first. *)
Fixpoint parseUintLoop (s : string) (n : Z) : Z * option NumErr :=
  match s with
  | EmptyString => (n, None)
  | String c r =>
      if isDigit c then
        if (maxUint64 / 10 + 1 <=? n)%Z then (maxUint64, Some ErrRange)
        else
          let n1 := (n * 10 + (code c - code "0"))%Z in
          if (maxUint64 <? n1)%Z then (maxUint64, Some ErrRange)
          else parseUintLoop r n1
      else (0%Z, Some ErrSyntax)
  end.

Definition ParseUint (s : string) : Z * option NumErr :=
  match s with
  | EmptyString => (0%Z, Some ErrSyntax)
  | _ => parseUintLoop s 0
  end.

(** [ParseInt(s, 10, 0)] where [int] has 64 bits. *)
Definition ParseInt (s : string) : Z * option NumErr :=
  match s with
  | EmptyString => (0%Z, Some ErrSyntax)
  | String c r =>
      let neg := Ascii.eqb c "-" in
      let digits := if Ascii.eqb c "+" || neg then r else s in
      match ParseUint digits with
      | (_, Some ErrSyntax) => (0%Z, Some ErrSyntax)
      | (un, _) =>
          let cutoff := (2 ^ 63)%Z in
          if negb neg && (cutoff <=? un)%Z then ((cutoff - 1)%Z, Some ErrRange)
          else if neg && (cutoff <? un)%Z then ((- cutoff)%Z, Some ErrRange)
          else ((if neg then - un else un)%Z, None)
      end
  end.

(** [strconv.Atoi]: the value and, on failure, a [*NumError] that carries
    the input.  (Atoi's fast path for short inputs returns what [ParseInt]
    returns.) *)
Definition Atoi (s : string) : Z * option error :=
  match ParseInt s with
  | (n, Some why) => (n, Some (InvalidNumber s why))
  | (n, None) => (n, None)
  end.

End Strconv.

(** ** Package [net] *)
Module Net.

Definition HardwareAddr := list byte.
Definition IP := list byte.

Definition big : Z := 16777215.

Definition between (lo c hi : byte) : bool :=
  ((code lo <=? code c) && (code c <=? code hi))%Z.

Definition hexval (c : byte) : option Z :=
  if between "0" c "9" then Some (code c - code "0")%Z
  else if between "a" c "f" then Some (code c - code "a" + 10)%Z
  else if between "A" c "F" then Some (code c - code "A" + 10)%Z
  else None.

(** [xtoi(s)]: the hexadecimal number at the start of [s], how many bytes
    it takes, and whether there was one (and it stayed below [big]). *)
Fixpoint xtoiLoop (s : string) (n : Z) (i : nat) : Z * nat * bool :=
  match s with
  | String c r =>
      match hexval c with
      | Some d =>
          let n' := (n * 16 + d)%Z in
          if (big <=? n')%Z then (0%Z, i, false) else xtoiLoop r n' (S i)
      | None => if Nat.eqb i 0 then (0%Z, i, false) else (n, i, true)
      end
  | EmptyString => if Nat.eqb i 0 then (0%Z, i, false) else (n, i, true)
  end.

Definition xtoi (s : string) : Z * nat * bool := xtoiLoop s 0 0.

(** [xtoi2(s, e)]: two hexadecimal digits, followed, when [s] goes on, by
    the byte [e].  [ParseMAC] only calls it on two bytes or more. *)
Definition xtoi2 (s : string) (e : byte) : byte * bool :=
  match String.get 2 s with
  | Some c =>
      if negb (Ascii.eqb c e) then ("000"%char, false)
      else let '(n, ei, ok) := xtoi (upto 2 s) in (byte_of n, ok && Nat.eqb ei 2)
  | None => let '(n, ei, ok) := xtoi (upto 2 s) in (byte_of n, ok && Nat.eqb ei 2)
  end.

(** The loop of the colon or dash form: [n] groups [xx], three bytes
    apart. *)
Fixpoint macGroups (n : nat) (s : string) (e : byte) : option HardwareAddr :=
  match n with
  | O => Some []
  | S n' =>
      match xtoi2 s e with
      | (b, true) => cons b <$> macGroups n' (skip 3 s) e
      | (_, false) => None
      end
  end.

(** The loop of the dotted form: [k] groups [xxxx], five bytes apart. *)
Fixpoint macQuads (k : nat) (s : string) (e : byte) : option HardwareAddr :=
  match k with
  | O => Some []
  | S k' =>
      match xtoi2 (upto 2 s) "000", xtoi2 (skip 2 s) e with
      | (b1, true), (b2, true) => (fun hw => b1 :: b2 :: hw) <$> macQuads k' (skip 5 s) e
      | _, _ => None
      end
  end.

Definition macLen (n : nat) : bool :=
  Nat.eqb n 6 || Nat.eqb n 8 || Nat.eqb n 20.

(** [net.ParseMAC]: a 6, 8 or 20 byte address written [xx:xx:...],
    [xx-xx-...] or [xxxx.xxxx...]; anything else is an [*AddrError]. *)
Definition ParseMAC (s : string) : error + HardwareAddr :=
  let fail := inl (InvalidAddress s) in
  let len := String.length s in
  if (len <? 14)%nat then fail
  else
    match String.get 2 s, String.get 4 s with
    | Some s2, Some s4 =>
        if Ascii.eqb s2 ":" || Ascii.eqb s2 "-" then
          if negb (Nat.eqb ((len + 1) mod 3) 0) then fail
          else
            let n := (len + 1) / 3 in
            if negb (macLen n) then fail
            else match macGroups n s s2 with
                 | Some hw => inr hw
                 | None => fail
                 end
        else if Ascii.eqb s4 "." then
          if negb (Nat.eqb ((len + 1) mod 5) 0) then fail
          else
            let n := 2 * (len + 1) / 5 in
            if negb (macLen n) then fail
            else match macQuads (n / 2) s s4 with
                 | Some hw => inr hw
                 | None => fail
                 end
        else fail
    | _, _ => fail
    end.

Definition IPv4len : nat := 4.
Definition IPv6len : nat := 16.

Definition zero : byte := "000"%char.

(** [IPv4(a, b, c, d)]: the 16-byte form of an IPv4 address. *)
Definition v4InV6Prefix : IP :=
  replicate 10 zero ++ [byte_of 255; byte_of 255].

(** The loop of [netip.parseIPv4Fields]: four decimal fields of at most
    255 and without leading zeroes, a dot between them.  [first] says that
    no byte has been read, [prevDot] that the last one was a dot; [val] and
    [digLen] are the value and the digits of the field being read. *)
Fixpoint v4Loop (s : string) (first prevDot : bool) (val : Z) (digLen : nat)
  (fields : list byte) : option (list byte) :=
  match s with
  | EmptyString =>
      if (length fields <? 3)%nat then None else Some (fields ++ [byte_of val])
  | String c r =>
      if between "0" c "9" then
        if Nat.eqb digLen 1 && (val =? 0)%Z then None
        else
          let val' := (val * 10 + (code c - code "0"))%Z in
          if (255 <? val')%Z then None
          else v4Loop r false false val' (S digLen) fields
      else if Ascii.eqb c "." then
        if first || prevDot || bool_decide (r = EmptyString) then None
        else if Nat.eqb (length fields) 3 then None
        else v4Loop r false true 0 0 (fields ++ [byte_of val])
      else None
  end.

Definition parseIPv4Fields (s : string) : option (list byte) :=
  v4Loop s true false 0 0 [].

(** [netip.parseIPv4], in the 16-byte form [net.ParseIP] returns. *)
Definition parseIPv4 (s : string) : IP :=
  match parseIPv4Fields s with
  | Some p => v4InV6Prefix ++ p
  | None => []
  end.

(** The hexadecimal field of [netip.parseIPv6]: one to four digits, the
    value and how many bytes it takes. *)
Fixpoint hexField (s : string) (acc : Z) (off : nat) : option (Z * nat) :=
  match s with
  | String c r =>
      match hexval c with
      | Some d =>
          let acc' := (acc * 16 + d)%Z in
          if (3 <? off)%nat then None
          else if (65535 <? acc')%Z then None
          else hexField r acc' (S off)
      | None => if Nat.eqb off 0 then None else Some (acc, off)
      end
  | EmptyString => if Nat.eqb off 0 then None else Some (acc, off)
  end.

(** The loop of [netip.parseIPv6]: 16-bit hexadecimal groups separated by
    colons, at most one [::], possibly a trailing dotted IPv4 address.
    [None] is the loop's error return; otherwise the state at its exit.
    Every turn that goes on adds two to [i], so [IPv6len] turns suffice. *)
Fixpoint v6Loop (turns : nat) (s : string) (ip : IP) (i : nat) (ellipsis : option nat)
  : option (string * IP * nat * option nat) :=
  match turns with
  | O => Some (s, ip, i, ellipsis)
  | S turns' =>
      if negb (i <? IPv6len)%nat then Some (s, ip, i, ellipsis)
      else
        match hexField s 0 0 with
        | None => None
        | Some (acc, off) =>
            if bool_decide (String.get off s = Some "."%char) then
              if bool_decide (ellipsis = None) && negb (Nat.eqb i (IPv6len - IPv4len))
              then None
              else if (IPv6len <? i + IPv4len)%nat then None
              else
                match parseIPv4Fields s with
                | None => None
                | Some ip4 =>
                    let ip' := <[i + 3 := nth 3 ip4 zero]>
                                 (<[i + 2 := nth 2 ip4 zero]>
                                    (<[i + 1 := nth 1 ip4 zero]>
                                       (<[i := nth 0 ip4 zero]> ip))) in
                    Some (EmptyString, ip', i + IPv4len, ellipsis)
                end
            else
              let ip' := <[i + 1 := byte_of acc]> (<[i := byte_of (Z.shiftr acc 8)]> ip) in
              let i' := i + 2 in
              match skip off s with
              | EmptyString => Some (EmptyString, ip', i', ellipsis)
              | String c0 EmptyString => None
              | String c0 (String c1 r1 as r) =>
                  if negb (Ascii.eqb c0 ":") then None
                  else if Ascii.eqb c1 ":" then
                    match ellipsis with
                    | Some _ => None
                    | None =>
                        match r1 with
                        | EmptyString => Some (EmptyString, ip', i', Some i')
                        | _ => v6Loop turns' r1 ip' i' (Some i')
                        end
                    end
                  else v6Loop turns' r ip' i' ellipsis
              end
        end
  end.

(** [netip.parseIPv6], as [net.ParseIP] uses it: an address with a zone
    (a [%]) is either an error or has a zone, and [net.ParseIP] returns
    nil for both. *)
Definition parseIPv6 (s : string) : IP :=
  if has "%" s then []
  else
    let start :=
      match s with
      | String ":" (String ":" r) => (r, Some 0)
      | _ => (s, None)
      end in
    match start with
    | (EmptyString, Some _) => replicate IPv6len zero
    | (s0, ellipsis0) =>
        match v6Loop IPv6len s0 (replicate IPv6len zero) 0 ellipsis0 with
        | None => []
        | Some (String _ _, _, _, _) => []
        | Some (EmptyString, ip, i, ellipsis) =>
            if (i <? IPv6len)%nat then
              match ellipsis with
              | None => []
              | Some e =>
                  take e ip ++ replicate (IPv6len - i) zero ++ take (i - e) (drop e ip)
              end
            else match ellipsis with
                 | Some _ => []
                 | None => ip
                 end
        end
    end.

(** [net.ParseIP], which goes through [netip.ParseAddr]: the first dot,
    colon or percent sign decides; the nil address when there is none of
    them, for a percent sign, or when the form does not parse. *)
Fixpoint parseIPScan (rest s : string) : IP :=
  match rest with
  | EmptyString => []
  | String c r =>
      if Ascii.eqb c "." then parseIPv4 s
      else if Ascii.eqb c ":" then parseIPv6 s
      else if Ascii.eqb c "%" then []
      else parseIPScan r s
  end.

Definition ParseIP (s : string) : IP := parseIPScan s s.

Definition hexDigit (n : Z) : byte :=
  match String.get (Z.to_nat n) "0123456789abcdef" with
  | Some c => c
  | None => "000"%char
  end.

(** [HardwareAddr.String]: the bytes in lower-case hexadecimal, a colon
    between them; the empty string for an empty address. *)
Fixpoint hexBytes (first : bool) (a : HardwareAddr) : string :=
  match a with
  | [] => EmptyString
  | b :: r =>
      let two := String (hexDigit (Z.shiftr (code b) 4))
                   (String (hexDigit (Z.land (code b) 15)) (hexBytes false r)) in
      if first then two else String ":" two
  end.

Definition String (a : HardwareAddr) : string := hexBytes true a.

End Net.

(** * The client

    ** [client.go]: the data model and the record decoder *)

(** [AttachedDevice] represents a device attached to the router. *)
Record AttachedDevice := {
  IP : Net.IP;
  Name : string;
  MAC : Net.HardwareAddr;
  Type_ : string;
  LinkRate : Z;
  Signal : Z
}.

(** The zero value [make] fills a fresh slice with. *)
Definition zeroDevice : AttachedDevice :=
  {| IP := []; Name := ""; MAC := []; Type_ := ""; LinkRate := 0; Signal := 0 |}.

(** [parts[i]]; the decoder indexes [parts] only after it has checked that
    there are eight of them. *)
Definition part (parts : list string) (i : nat) : string := nth i parts "".

(** The body of the decoder's loop, for one device substring: the error it
    returns, or the device it stores. *)
Definition parseDevice (devStr : string) : error + AttachedDevice :=
  let parts := Strings.Split devStr ";" in
  if negb (Nat.eqb (length parts) 8) then inl (MalformedRecord devStr)
  else
    match Net.ParseMAC (part parts 3) with
    | inl err => inl err
    | inr mac =>
        let '(signal, err5) := Strconv.Atoi (part parts 5) in
        match err5, String.eqb (part parts 5) "" with
        | Some err, false => inl err
        | _, _ =>
            let '(linkRate, err6) := Strconv.Atoi (part parts 6) in
            match err6, String.eqb (part parts 6) "" with
            | Some err, false => inl err
            | _, _ =>
                inr {| IP := Net.ParseIP (part parts 1);
                       Name := part parts 2;
                       MAC := mac;
                       Type_ := part parts 4;
                       Signal := signal;
                       LinkRate := linkRate |}
            end
        end
    end.

(** [for i, devStr := range devStrs { ...; devList[i] = ... }] *)
Fixpoint parseLoop (i : nat) (devStrs : list string) (devList : list AttachedDevice)
  : error + list AttachedDevice :=
  match devStrs with
  | [] => inr devList
  | devStr :: rest =>
      match parseDevice devStr with
      | inl err => inl err
      | inr dev => parseLoop (S i) rest (<[i := dev]> devList)
      end
  end.

(** [devices[2:]] panics when [devices] has fewer than two bytes. *)
Definition parseDevicesString (devices : string) : result (list AttachedDevice) :=
  if (String.length devices <? 2)%nat then Panic
  else
    let devStrs := Strings.Split (skip 2 devices) "@" in
    let devList := replicate (length devStrs) zeroDevice in
    match parseLoop 0 devStrs devList with
    | inl err => Err err
    | inr devList => Ok devList
    end.

(** The device substrings of an input and the fields of a device
    substring, as the decoder cuts them. *)
Definition devStrsOf (devices : string) : list string :=
  Strings.Split (skip 2 devices) "@".

Definition fields (devStr : string) : list string := Strings.Split devStr ";".

Definition field (i : nat) (devStr : string) : string := part (fields devStr) i.

(** A device substring decodes when the loop body returns no error. *)
Definition decodes (devStr : string) : Prop :=
  exists dev, parseDevice devStr = inr dev.

(** What the loop computes, read off the list of device substrings: the
    first error, or the devices in order. *)
Fixpoint decodeAll (devStrs : list string) : error + list AttachedDevice :=
  match devStrs with
  | [] => inr []
  | devStr :: rest =>
      match parseDevice devStr with
      | inl err => inl err
      | inr dev =>
          match decodeAll rest with
          | inl err => inl err
          | inr devs => inr (dev :: devs)
          end
      end
  end.

(** The SOAP round trip of [soap] and the XML decoding of its response are
    the client's environment: what one request comes back with. *)
Inductive Reply :=
| NoResponse (cause : string)
| BadEnvelope (cause : string)
| Envelope (ResponseCode : Z) (NewAttachDevice : string).

(** [Login]: the error, if any. *)
Definition Login (reply : Reply) : option error :=
  match reply with
  | NoResponse cause => Some (TransportError cause)
  | BadEnvelope cause => Some (DecodeError cause)
  | Envelope respCode _ =>
      if negb (Z.eqb respCode 0) then Some (AuthFailed respCode) else None
  end.

(** [Devices]: the decoded device list of the response. *)
Definition Devices (reply : Reply) : result (list AttachedDevice) :=
  match reply with
  | NoResponse cause => Err (TransportError cause)
  | BadEnvelope cause => Err (DecodeError cause)
  | Envelope respCode AttachedDevices =>
      if negb (Z.eqb respCode 0) then Err (FetchFailed respCode)
      else parseDevicesString AttachedDevices
  end.

(** ** [listener.go]: the differ and the polling loop *)

Inductive DeviceChange := DeviceAdded | DeviceRemoved.

Record ChangedDevice := {
  Device : AttachedDevice;
  Change : DeviceChange
}.

(** The key the differ files a device under: [dev.MAC.String()]. *)
Definition key (dev : AttachedDevice) : string := Net.String (MAC dev).

(** [for _, dev := range oldDevices { diff[dev.MAC.String()] = true }] *)
Fixpoint markOld (oldDevices : list AttachedDevice) (diff : gmap string bool)
  : gmap string bool :=
  match oldDevices with
  | [] => diff
  | dev :: rest => markOld rest (<[key dev := true]> diff)
  end.

(** The loop that finds newly added devices; it deletes from [diff] the
    key of every device it finds there. *)
Fixpoint findAdded (newDevices : list AttachedDevice) (diff : gmap string bool)
  (change : list ChangedDevice) : gmap string bool * list ChangedDevice :=
  match newDevices with
  | [] => (diff, change)
  | dev :: rest =>
      match diff !! key dev with
      | None =>
          findAdded rest diff (change ++ [{| Device := dev; Change := DeviceAdded |}])
      | Some _ => findAdded rest (delete (key dev) diff) change
      end
  end.

(** The loop that finds removed devices. *)
Fixpoint findRemoved (oldDevices : list AttachedDevice) (diff : gmap string bool)
  (change : list ChangedDevice) : list ChangedDevice :=
  match oldDevices with
  | [] => change
  | dev :: rest =>
      match diff !! key dev with
      | Some _ =>
          findRemoved rest diff (change ++ [{| Device := dev; Change := DeviceRemoved |}])
      | None => findRemoved rest diff change
      end
  end.

(** Determine what devices were changed between two lists of attached
    devices. *)
Definition getChangedDevices (oldDevices newDevices : list AttachedDevice)
  : list ChangedDevice :=
  let diff := markOld oldDevices ∅ in
  let '(diff, change) := findAdded newDevices diff [] in
  findRemoved oldDevices diff change.

(** One call of the listener [fn]: [fn(&changedDevice, nil)] or
    [fn(nil, err)]. *)
Inductive Call :=
| Changed (changedDevice : ChangedDevice)
| Failed (err : error).

(** What the router answers on one tick: to the login request and, when
    that one succeeds, to the request for the attached devices. *)
Record Poll := {
  loginReply : Reply;
  devicesReply : Reply
}.

(** The closure [getDevices] of [OnDeviceChanged]. *)
Definition getDevices (poll : Poll) : result (list AttachedDevice) :=
  match Login (loginReply poll) with
  | Some err => Err err
  | None => Devices (devicesReply poll)
  end.

(** The state of the goroutine [watcher]: the baseline [devices] and the
    calls of [fn] made so far; a panic ends it. *)
Inductive Watcher :=
| Watching (devices : list AttachedDevice) (calls : list Call)
| Panicked (calls : list Call).

Definition calls (w : Watcher) : list Call :=
  match w with
  | Watching _ calls => calls
  | Panicked calls => calls
  end.

(** One turn of the loop [for _ = range ticker.C]. *)
Definition tick (w : Watcher) (poll : Poll) : Watcher :=
  match w with
  | Panicked calls => Panicked calls
  | Watching devices calls =>
      match getDevices poll with
      | Panic => Panicked calls
      | Err err => Watching devices (calls ++ [Failed err])
      | Ok updatedDevices =>
          let changedDevices := getChangedDevices devices updatedDevices in
          Watching updatedDevices (calls ++ map Changed changedDevices)
      end
  end.

(** [watcher] over the ticks that have fired. *)
Definition watcher (w : Watcher) (ticks : list Poll) : Watcher :=
  foldl tick w ticks.

(** [OnDeviceChanged] starts [watcher] on [devices := []AttachedDevice{}]. *)
Definition OnDeviceChanged (ticks : list Poll) : Watcher :=
  watcher (Watching [] []) ticks.

(** The snapshot of the last tick that fetched one; none yet is the empty
    snapshot. *)
Definition lastFetched (ticks : list Poll) : list AttachedDevice :=
  foldl (fun devices poll =>
           match getDevices poll with
           | Ok updatedDevices => updatedDevices
           | _ => devices
           end) [] ticks.

(** A number field is fine for the decoder when it is empty or
    [strconv.Atoi] takes it. *)
Definition numberOk (f : string) : Prop :=
  f = "" \/ snd (Strconv.Atoi f) = None.

(** A device substring of eight fields whose address and numbers are fine;
    field 1, the IP address, plays no part. *)
Definition wellFormed (devStr : string) : Prop :=
  length (fields devStr) = 8 /\
  (exists mac, Net.ParseMAC (field 3 devStr) = inr mac) /\
  numberOk (field 5 devStr) /\ numberOk (field 6 devStr).

(** Numeric content: decimal digits, at least one, after an optional
    sign. *)
Fixpoint allDigits (s : string) : bool :=
  match s with
  | EmptyString => true
  | String c r => Strconv.isDigit c && allDigits r
  end.

Definition numeric (f : string) : bool :=
  match f with
  | EmptyString => false
  | String c r =>
      let digits := if Ascii.eqb c "+" || Ascii.eqb c "-" then r else f in
      negb (String.eqb digits "") && allDigits digits
  end.

Definition nonNumeric (f : string) : Prop := f <> "" /\ numeric f = false.

(** The change records the differ appends. *)
Definition added (dev : AttachedDevice) : ChangedDevice :=
  {| Device := dev; Change := DeviceAdded |}.

Definition removed (dev : AttachedDevice) : ChangedDevice :=
  {| Device := dev; Change := DeviceRemoved |}.

(** The keys of a snapshot, in order. *)
Definition keys (devices : list AttachedDevice) : list string := map key devices.

#[global] Instance DeviceChange_eq_dec : EqDecision DeviceChange.
Proof. solve_decision. Defined.

(** How many devices of a list are filed under the key [k], and how many
    changes of the kind [ch] a change list holds for it. *)
Definition count (k : string) (devices : list AttachedDevice) : nat :=
  length (filter (fun dev => key dev = k) devices).

Definition events (ch : DeviceChange) (k : string) (changes : list ChangedDevice) : nat :=
  length (filter (fun c => Change c = ch /\ key (Device c) = k) changes).

(** How often the byte [c] occurs in [s]. *)
Fixpoint occurrences (c : byte) (s : string) : nat :=
  match s with
  | EmptyString => 0
  | String c' r => (if Ascii.eqb c' c then 1 else 0) + occurrences c r
  end.

(** A listener that keeps the set of the keys it believes attached: it
    adds the key of an [Added] change, drops the key of a [Removed] one
    and leaves the set alone on an error. *)
Definition applyChange (known : gset string) (c : ChangedDevice) : gset string :=
  match Change c with
  | DeviceAdded => {[key (Device c)]} ∪ known
  | DeviceRemoved => known ∖ {[key (Device c)]}
  end.

Definition applyCall (known : gset string) (call : Call) : gset string :=
  match call with
  | Changed c => applyChange known c
  | Failed _ => known
  end.

(** ** [cmd/netgear-listener/main.go]: the listener of the command *)

Definition newline : string := String "010" EmptyString.

(** What one call of [listener] prints: nothing on an error, otherwise
    one line with the hardware address of the device. *)
Definition listener (call : Call) : string :=
  match call with
  | Failed _ => ""
  | Changed change =>
      let mac := Net.String (MAC (Device change)) in
      match Change change with
      | DeviceAdded => "New device added: " +:+ mac +:+ newline
      | DeviceRemoved => "Device removed: " +:+ mac +:+ newline
      end
  end.

(** The output of the command over the calls the watcher makes. *)
Definition printed (calls : list Call) : string :=
  foldl (fun out call => out +:+ listener call) "" calls.

(** ** Inputs of the specification's examples *)

(** Inputs on which the specification's sentences about errors are
    checked: a device substring with a bad address followed by one with
    too few fields, and the other way round. *)
Definition badAddressThenShort : string := "2@0;10.0.0.2;phone;zz;wifi;;;x@short".
Definition shortThenBadAddress : string := "2@short@0;10.0.0.2;phone;zz;wifi;;;x".

(** The end-to-end example of the specification and what it decodes
    to. *)
Definition twoDevices : string :=
  "2@0;10.0.0.2;phone;aa:aa:aa:aa:aa:aa;wifi;-50;100;x@0;10.0.0.3;tv;bb:bb:bb:bb:bb:bb;eth;;;x".

Definition mac6 (b : Z) : Net.HardwareAddr := replicate 6 (byte_of b).

Definition decodedTwoDevices : list AttachedDevice :=
  [ {| IP := Net.ParseIP "10.0.0.2"; Name := "phone"; MAC := mac6 170;
       Type_ := "wifi"; LinkRate := 100; Signal := -50 |};
    {| IP := Net.ParseIP "10.0.0.3"; Name := "tv"; MAC := mac6 187;
       Type_ := "eth"; LinkRate := 0; Signal := 0 |} ].

(** One device substring with both a bad address and a signal field that
    is no number. *)
Definition badAddressAndSignal : string := "1@0;10.0.0.3;tv;zz;eth;n/a;;x".

(** The same input with a signal field that is no number. *)
Definition nonNumericSignal : string :=
  "2@0;10.0.0.2;phone;aa:aa:aa:aa:aa:aa;wifi;-50;100;x@0;10.0.0.3;tv;bb:bb:bb:bb:bb:bb;eth;n/a;;x".

(** Tactics for goals about concrete inputs. *)
Ltac compute_devStrs :=
  match goal with
  | |- context [devStrsOf ?s] =>
      let l := eval vm_compute in (devStrsOf s) in
      change (devStrsOf s) with l
  end.

Ltac solve_wellFormed :=
  repeat split;
  solve [ vm_compute; reflexivity
        | eexists; vm_compute; reflexivity
        | left; vm_compute; reflexivity
        | right; vm_compute; reflexivity ].

Ltac solve_decodes := eexists; vm_compute; reflexivity.

(** The devices A, B and C of the specification's example, with the
    two-byte addresses [aa:aa], [bb:bb] and [cc:cc]. *)
Definition device (mac : Z) (name : string) (signal : Z) : AttachedDevice :=
  {| IP := []; Name := name; MAC := [byte_of mac; byte_of mac]; Type_ := "";
     LinkRate := 0; Signal := signal |}.

Definition deviceA : AttachedDevice := device 170 "A" 0.
Definition deviceB : AttachedDevice := device 187 "B" 0.
Definition deviceC : AttachedDevice := device 204 "C" 0.

(** Ticks of the specification's examples: the router lets the client in
    and answers with a device list, refuses the login, or refuses the
    request for the devices. *)
Definition answers (payload : string) : Poll :=
  {| loginReply := Envelope 0 ""; devicesReply := Envelope 0 payload |}.

Definition loginRefused : Poll :=
  {| loginReply := Envelope 401 ""; devicesReply := Envelope 0 twoDevices |}.

Definition fetchRefused : Poll :=
  {| loginReply := Envelope 0 ""; devicesReply := Envelope 1 "" |}.

(** * Properties *)

(** ** The library models on examples *)

Example Split_keeps_empty_pieces :
  Strings.Split "a;b;;c" ";" = ["a"; "b"; ""; "c"] /\ Strings.Split "" "@" = [""].
Proof. split; reflexivity. Qed.

Example Atoi_examples :
  Strconv.Atoi "-50" = ((-50)%Z, None) /\
  Strconv.Atoi "+7" = (7%Z, None) /\
  Strconv.Atoi "" = (0%Z, Some (InvalidNumber "" ErrSyntax)) /\
  Strconv.Atoi "-" = (0%Z, Some (InvalidNumber "-" ErrSyntax)) /\
  Strconv.Atoi "1_0" = (0%Z, Some (InvalidNumber "1_0" ErrSyntax)) /\
  Strconv.Atoi "9223372036854775808" =
    ((2 ^ 63 - 1)%Z, Some (InvalidNumber "9223372036854775808" ErrRange)) /\
  Strconv.Atoi "-9223372036854775808" = ((- 2 ^ 63)%Z, None).
Proof. repeat split; vm_compute; reflexivity. Qed.

Example ParseMAC_examples :
  Net.ParseMAC "aa:Bb:0c:1d:2e:3f" = inr (map byte_of [170; 187; 12; 29; 46; 63]%Z) /\
  Net.ParseMAC "aabb.0c1d.2e3f" = inr (map byte_of [170; 187; 12; 29; 46; 63]%Z) /\
  Net.ParseMAC "aa-bb-0c-1d-2e-3f-00-11" =
    inr (map byte_of [170; 187; 12; 29; 46; 63; 0; 17]%Z) /\
  Net.ParseMAC "aa:bb:0c:1d:2e-3f" = inl (InvalidAddress "aa:bb:0c:1d:2e-3f") /\
  Net.ParseMAC "aa:bb:0c:1d:2e:3" = inl (InvalidAddress "aa:bb:0c:1d:2e:3") /\
  Net.ParseMAC "" = inl (InvalidAddress "").
Proof. repeat split; vm_compute; reflexivity. Qed.

Example HardwareAddr_String_examples :
  Net.String (map byte_of [170; 187; 12; 29; 46; 63]%Z) = "aa:bb:0c:1d:2e:3f" /\
  Net.String [] = "" /\
  key deviceA = "aa:aa".
Proof. repeat split; vm_compute; reflexivity. Qed.

Example ParseIP_examples :
  map code (Net.ParseIP "10.0.0.2") =
    [0; 0; 0; 0; 0; 0; 0; 0; 0; 0; 255; 255; 10; 0; 0; 2]%Z /\
  map code (Net.ParseIP "fe80::1:2") =
    [254; 128; 0; 0; 0; 0; 0; 0; 0; 0; 0; 0; 0; 1; 0; 2]%Z /\
  map code (Net.ParseIP "::ffff:1.2.3.4") =
    [0; 0; 0; 0; 0; 0; 0; 0; 0; 0; 255; 255; 1; 2; 3; 4]%Z /\
  Net.ParseIP "" = [] /\
  Net.ParseIP "tv" = [] /\
  Net.ParseIP "10.0.0.256" = [] /\
  Net.ParseIP "1.2.3" = [] /\
  Net.ParseIP "010.0.0.2" = [] /\
  Net.ParseIP "1:2:3:4:5:6:7::8" = [] /\
  Net.ParseIP "fe80::00001" = [] /\
  Net.ParseIP "00001::1" = [] /\
  Net.ParseIP "fe80::1%eth0" = [].
Proof. repeat split; vm_compute; reflexivity. Qed.

(** An input that is only the prefix, ["0@"], has one empty device
    substring and does not decode. *)
Example no_device_does_not_decode :
  parseDevicesString "0@" = Err (MalformedRecord "").
Proof. vm_compute; reflexivity. Qed.

(** ** The record decoder *)

Section Decoder.

Implicit Types (devices devStr : string) (devStrs : list string).
Implicit Types (dev : AttachedDevice) (devs devList : list AttachedDevice).

(** The loop writes the decoded devices into consecutive slots, from [i]
    on, and leaves on the first error. *)
Lemma parseLoop_decodeAll devStrs : forall i devList,
  i + length devStrs <= length devList ->
  parseLoop i devStrs devList =
    match decodeAll devStrs with
    | inl err => inl err
    | inr devs =>
        inr (take i devList ++ devs ++ drop (i + length devStrs) devList)
    end.
Proof.
  induction devStrs as [|devStr rest IH]; intros i devList Hlen; simpl in *.
  - rewrite Nat.add_0_r, take_drop. reflexivity.
  - destruct (parseDevice devStr) as [err|dev]; [reflexivity|].
    rewrite IH by (rewrite length_insert; lia).
    destruct (decodeAll rest) as [err|devs]; [reflexivity|].
    f_equal.
    rewrite (take_S_r _ i dev) by (apply list_lookup_insert_eq; lia).
    rewrite take_insert_ge by lia.
    rewrite drop_insert_lt by lia.
    rewrite <- app_assoc. simpl.
    replace (i + S (length rest)) with (S (i + length rest)) by lia.
    reflexivity.
Qed.

Lemma decodeAll_length devStrs devs :
  decodeAll devStrs = inr devs -> length devs = length devStrs.
Proof.
  revert devs. induction devStrs as [|devStr rest IH]; intros devs; simpl.
  - intros [= <-]. reflexivity.
  - destruct (parseDevice devStr); [discriminate|].
    destruct (decodeAll rest); [discriminate|].
    intros [= <-]. simpl. f_equal. apply IH. reflexivity.
Qed.

(** On two bytes or more the decoder returns what [decodeAll] says about
    the device substrings. *)
Lemma parseDevicesString_decodeAll devices :
  2 <= String.length devices ->
  parseDevicesString devices =
    match decodeAll (devStrsOf devices) with
    | inl err => Err err
    | inr devs => Ok devs
    end.
Proof.
  intros Hlen. unfold parseDevicesString, devStrsOf.
  destruct (Nat.ltb_spec (String.length devices) 2) as [?|_]; [lia|].
  cbv zeta. rewrite parseLoop_decodeAll by (rewrite length_replicate; lia).
  destruct (decodeAll _) as [err|devs] eqn:E; [reflexivity|].
  apply decodeAll_length in E.
  rewrite take_0, drop_ge by (rewrite length_replicate; simpl; lia).
  rewrite app_nil_r. reflexivity.
Qed.

(** Device substrings that decode do not stop the loop. *)
Lemma decodeAll_app pre : forall rest,
  Forall decodes pre ->
  exists devs, decodeAll pre = inr devs /\
    decodeAll (pre ++ rest) =
      match decodeAll rest with
      | inl err => inl err
      | inr more => inr (devs ++ more)
      end.
Proof.
  induction pre as [|devStr pre IH]; intros rest Hpre; simpl.
  - exists []. split; [reflexivity|]. destruct (decodeAll rest); reflexivity.
  - inversion Hpre as [|? ? [dev Hdev] Hpre']; subst.
    destruct (IH rest Hpre') as (devs & Hdevs & Happ).
    exists (dev :: devs). rewrite Hdev, Hdevs, Happ.
    split; [reflexivity|]. destruct (decodeAll rest); reflexivity.
Qed.

(** A device substring that does not decode fails the whole list, with
    its own error when it is the first one. *)
Lemma decodeAll_fails pre devStr post err :
  parseDevice devStr = inl err ->
  (exists err', decodeAll (pre ++ devStr :: post) = inl err') /\
  (Forall decodes pre -> decodeAll (pre ++ devStr :: post) = inl err).
Proof.
  intros Hbad. split.
  - induction pre as [|d pre [err' IH]]; simpl.
    + rewrite Hbad. eauto.
    + destruct (parseDevice d); [eauto|]. rewrite IH. eauto.
  - intros Hpre.
    destruct (decodeAll_app pre (devStr :: post) Hpre) as (devs & _ & ->).
    simpl. rewrite Hbad. reflexivity.
Qed.

(** A successful decode has one device per device substring, in order. *)
Lemma decodeAll_Forall2 devStrs : forall devs,
  decodeAll devStrs = inr devs <->
  Forall2 (fun devStr dev => parseDevice devStr = inr dev) devStrs devs.
Proof.
  induction devStrs as [|devStr rest IH]; intros devs; simpl.
  - split.
    + intros [= <-]. constructor.
    + intros H. inversion H. reflexivity.
  - split.
    + destruct (parseDevice devStr) as [|dev] eqn:E; [discriminate|].
      destruct (decodeAll rest) as [|more] eqn:E'; [discriminate|].
      intros [= <-]. constructor; [assumption|]. apply IH. reflexivity.
    + intros H. inversion H as [|? dev ? more Hdev Hrest]; subst.
      rewrite Hdev. apply IH in Hrest. rewrite Hrest. reflexivity.
Qed.

(** *** [strconv.Atoi] on content that is not numeric *)

Lemma parseUintLoop_range s : forall n,
  snd (Strconv.parseUintLoop s n) = Some ErrRange ->
  fst (Strconv.parseUintLoop s n) = Strconv.maxUint64.
Proof.
  induction s as [|c r IH]; intros n; simpl; [discriminate|].
  destruct (Strconv.isDigit c); [|discriminate].
  destruct (_ <=? n)%Z; [reflexivity|].
  destruct (_ <? _)%Z; [reflexivity|]. apply IH.
Qed.

Lemma parseUintLoop_not_digits s : forall n,
  allDigits s = false -> snd (Strconv.parseUintLoop s n) <> None.
Proof.
  induction s as [|c r IH]; intros n; simpl; [discriminate|].
  destruct (Strconv.isDigit c); simpl; [|discriminate].
  intros Hr. destruct (_ <=? n)%Z; [discriminate|].
  destruct (_ <? _)%Z; [discriminate|]. apply IH, Hr.
Qed.

Lemma ParseUint_not_digits s :
  negb (String.eqb s "") && allDigits s = false ->
  snd (Strconv.ParseUint s) <> None.
Proof.
  destruct s as [|c r]; [discriminate|].
  intros H. apply parseUintLoop_not_digits, H.
Qed.

Lemma ParseUint_range s :
  snd (Strconv.ParseUint s) = Some ErrRange ->
  fst (Strconv.ParseUint s) = Strconv.maxUint64.
Proof.
  destruct s as [|c r]; [discriminate|]. apply parseUintLoop_range.
Qed.

Lemma ParseInt_not_numeric f :
  f <> "" -> numeric f = false -> snd (Strconv.ParseInt f) <> None.
Proof.
  destruct f as [|c r]; [congruence|]. intros _. unfold numeric, Strconv.ParseInt.
  cbv zeta.
  set (digits := if Ascii.eqb c "+" || Ascii.eqb c "-" then r else String c r).
  intros Hnum.
  pose proof (ParseUint_not_digits digits Hnum) as Hu.
  pose proof (ParseUint_range digits) as Hr.
  destruct (Strconv.ParseUint digits) as [un [[]|]]; simpl in *;
    [discriminate| |congruence].
  rewrite Hr by reflexivity.
  destruct (Ascii.eqb c "-"); simpl; discriminate.
Qed.

Lemma Atoi_error f err :
  snd (Strconv.Atoi f) = Some err -> exists why, err = InvalidNumber f why.
Proof.
  unfold Strconv.Atoi. destruct (Strconv.ParseInt f) as [n [why|]]; simpl.
  - intros [= <-]. eauto.
  - discriminate.
Qed.

Lemma Atoi_not_numeric f :
  nonNumeric f -> exists why, snd (Strconv.Atoi f) = Some (InvalidNumber f why).
Proof.
  intros [Hne Hnum]. pose proof (ParseInt_not_numeric f Hne Hnum) as H.
  unfold Strconv.Atoi. destruct (Strconv.ParseInt f) as [n [why|]]; simpl in *.
  - eauto.
  - congruence.
Qed.

(** *** The loop body, case by case *)

Lemma ParseMAC_error s err :
  Net.ParseMAC s = inl err -> err = InvalidAddress s.
Proof.
  unfold Net.ParseMAC.
  repeat match goal with
         | |- context [if ?b then _ else _] => destruct b
         | |- context [match ?o with Some _ => _ | None => _ end] => destruct o
         end; congruence.
Qed.

Lemma parseDevice_malformed devStr :
  length (fields devStr) <> 8 -> parseDevice devStr = inl (MalformedRecord devStr).
Proof.
  intros H. unfold parseDevice. fold (fields devStr).
  destruct (Nat.eqb_spec (length (fields devStr)) 8); [contradiction|reflexivity].
Qed.

Lemma parseDevice_bad_mac devStr err :
  length (fields devStr) = 8 ->
  Net.ParseMAC (field 3 devStr) = inl err ->
  parseDevice devStr = inl (InvalidAddress (field 3 devStr)).
Proof.
  intros H8 Hmac. unfold parseDevice. fold (fields devStr).
  rewrite H8. simpl. fold (field 3 devStr). rewrite Hmac.
  f_equal. apply (ParseMAC_error _ _ Hmac).
Qed.

(** With eight fields and an address that parses, the two number fields
    decide. *)
Lemma parseDevice_numbers devStr mac :
  length (fields devStr) = 8 ->
  Net.ParseMAC (field 3 devStr) = inr mac ->
  parseDevice devStr =
    match Strconv.Atoi (field 5 devStr), Strconv.Atoi (field 6 devStr) with
    | (signal, err5), (linkRate, err6) =>
        match err5, String.eqb (field 5 devStr) "" with
        | Some err, false => inl err
        | _, _ =>
            match err6, String.eqb (field 6 devStr) "" with
            | Some err, false => inl err
            | _, _ =>
                inr {| IP := Net.ParseIP (field 1 devStr);
                       Name := field 2 devStr;
                       MAC := mac;
                       Type_ := field 4 devStr;
                       Signal := signal;
                       LinkRate := linkRate |}
            end
        end
    end.
Proof.
  intros H8 Hmac. unfold parseDevice. fold (fields devStr).
  rewrite H8. simpl. fold (field 3 devStr). rewrite Hmac.
  fold (field 5 devStr) (field 6 devStr) (field 1 devStr)
       (field 2 devStr) (field 4 devStr).
  destruct (Strconv.Atoi (field 5 devStr)) as [signal err5].
  destruct (Strconv.Atoi (field 6 devStr)) as [linkRate err6].
  reflexivity.
Qed.

(** Decoding a device substring succeeds exactly when it is well formed,
    and then the fields land where they belong. *)
Lemma parseDevice_wellFormed devStr :
  wellFormed devStr ->
  exists mac,
    Net.ParseMAC (field 3 devStr) = inr mac /\
    parseDevice devStr =
      inr {| IP := Net.ParseIP (field 1 devStr);
             Name := field 2 devStr;
             MAC := mac;
             Type_ := field 4 devStr;
             Signal := fst (Strconv.Atoi (field 5 devStr));
             LinkRate := fst (Strconv.Atoi (field 6 devStr)) |}.
Proof.
  intros (H8 & [mac Hmac] & H5 & H6). exists mac. split; [assumption|].
  rewrite (parseDevice_numbers _ mac H8 Hmac).
  assert (E5 : snd (Strconv.Atoi (field 5 devStr)) = None \/
               String.eqb (field 5 devStr) "" = true).
  { destruct H5 as [E|E]; [right; rewrite E; reflexivity|left; exact E]. }
  assert (E6 : snd (Strconv.Atoi (field 6 devStr)) = None \/
               String.eqb (field 6 devStr) "" = true).
  { destruct H6 as [E|E]; [right; rewrite E; reflexivity|left; exact E]. }
  revert E5 E6.
  destruct (Strconv.Atoi (field 5 devStr)) as [signal err5].
  destruct (Strconv.Atoi (field 6 devStr)) as [linkRate err6]. simpl.
  intros [-> | ->] [-> | ->];
    repeat match goal with |- context [match ?e with Some _ => _ | None => _ end] =>
             destruct e end; reflexivity.
Qed.

Lemma decodes_wellFormed devStr : decodes devStr <-> wellFormed devStr.
Proof.
  split.
  - intros [dev Hdev]. unfold wellFormed.
    destruct (Nat.eq_dec (length (fields devStr)) 8) as [H8|H8];
      [|rewrite parseDevice_malformed in Hdev by assumption; discriminate].
    destruct (Net.ParseMAC (field 3 devStr)) as [err|mac] eqn:Hmac;
      [rewrite (parseDevice_bad_mac _ err) in Hdev by assumption; discriminate|].
    rewrite (parseDevice_numbers _ mac H8 Hmac) in Hdev.
    split; [assumption|]. split; [eauto|]. unfold numberOk.
    destruct (Strconv.Atoi (field 5 devStr)) as [signal [err5|]];
      destruct (Strconv.Atoi (field 6 devStr)) as [linkRate [err6|]]; simpl in *;
      destruct (String.eqb_spec (field 5 devStr) "");
      destruct (String.eqb_spec (field 6 devStr) "");
      try discriminate; auto.
  - intros H. destruct (parseDevice_wellFormed _ H) as (mac & _ & E).
    eexists. exact E.
Qed.

(** Content of a number field that is neither empty nor numeric ends the
    loop body with the error of [strconv.Atoi]. *)
Lemma parseDevice_not_numeric devStr mac :
  length (fields devStr) = 8 ->
  Net.ParseMAC (field 3 devStr) = inr mac ->
  nonNumeric (field 5 devStr) \/ nonNumeric (field 6 devStr) ->
  exists num why, parseDevice devStr = inl (InvalidNumber num why).
Proof.
  intros H8 Hmac Hnon. rewrite (parseDevice_numbers _ mac H8 Hmac).
  pose proof (Atoi_error (field 5 devStr)) as H5.
  pose proof (Atoi_error (field 6 devStr)) as H6.
  pose proof (Atoi_not_numeric (field 5 devStr)) as N5.
  pose proof (Atoi_not_numeric (field 6 devStr)) as N6.
  assert (Q : forall f, nonNumeric f -> String.eqb f "" = false).
  { intros f [Hne _]. apply String.eqb_neq, Hne. }
  destruct (Strconv.Atoi (field 5 devStr)) as [signal err5].
  destruct (Strconv.Atoi (field 6 devStr)) as [linkRate err6]. simpl in *.
  destruct err5 as [e5|], (String.eqb (field 5 devStr) "") eqn:Q5.
  - destruct Hnon as [Hn|Hn]; [rewrite (Q _ Hn) in Q5; discriminate|].
    destruct (N6 Hn) as [why ->]. rewrite (Q _ Hn). eauto.
  - destruct (H5 e5 eq_refl) as [why ->]. eauto.
  - destruct Hnon as [Hn|Hn]; [destruct (N5 Hn); discriminate|].
    destruct (N6 Hn) as [why ->]. rewrite (Q _ Hn). eauto.
  - destruct Hnon as [Hn|Hn]; [destruct (N5 Hn); discriminate|].
    destruct (N6 Hn) as [why ->]. rewrite (Q _ Hn). eauto.
Qed.

(** A decoded device has the value 0 where the number field is empty. *)
Lemma parseDevice_empty_number devStr dev :
  parseDevice devStr = inr dev ->
  (field 5 devStr = "" -> Signal dev = 0%Z) /\
  (field 6 devStr = "" -> LinkRate dev = 0%Z).
Proof.
  intros Hdev.
  assert (Hwf : wellFormed devStr) by (apply decodes_wellFormed; eexists; exact Hdev).
  destruct (parseDevice_wellFormed _ Hwf) as (mac & _ & E).
  rewrite E in Hdev. injection Hdev as <-. simpl.
  split; intros ->; reflexivity.
Qed.

(** *** What the specification says about the decoder *)

(** C10. The decoder panics exactly on the inputs shorter than two bytes:
    there the unconditional [devices[2:]] is out of range and no error
    value is returned; on every longer input it returns, a device list or
    an error. *)
Theorem parseDevicesString_panics_below_two devices :
  parseDevicesString devices = Panic <-> String.length devices < 2.
Proof.
  split.
  - intros Hp. destruct (Nat.lt_ge_cases (String.length devices) 2) as [?|Hge];
      [assumption|].
    rewrite parseDevicesString_decodeAll in Hp by assumption.
    destruct (decodeAll _); discriminate.
  - intros Hlt. unfold parseDevicesString.
    destruct (Nat.ltb_spec (String.length devices) 2); [reflexivity|lia].
Qed.

Lemma parseDevicesString_panics_below_two_witness :
  String.length "7" < 2 /\ parseDevicesString "7" = Panic.
Proof.
  split; [simpl; lia|].
  apply (proj2 (parseDevicesString_panics_below_two "7")). simpl; lia.
Defined.

(** C4, as amended.  When a device substring does not split into exactly
    eight fields, the whole decode fails and returns no device list; the
    error is that of the first device substring that does not decode, so
    it is [MalformedRecord] with the offending substring when all the
    device substrings before it decode. *)
Theorem malformed_record_fails_decode devices pre devStr post :
  2 <= String.length devices ->
  devStrsOf devices = pre ++ devStr :: post ->
  length (fields devStr) <> 8 ->
  (exists err, parseDevicesString devices = Err err) /\
  (Forall decodes pre ->
   parseDevicesString devices = Err (MalformedRecord devStr)).
Proof.
  intros Hlen Hsplit Hbad.
  rewrite parseDevicesString_decodeAll, Hsplit by assumption.
  destruct (decodeAll_fails pre devStr post _ (parseDevice_malformed _ Hbad))
    as [[err' E] Hfirst].
  split.
  - exists err'. rewrite E. reflexivity.
  - intros Hpre. rewrite (Hfirst Hpre). reflexivity.
Qed.

Lemma malformed_record_fails_decode_witness :
  parseDevicesString "2@0;10.0.0.2;phone;aa:aa:aa:aa:aa:aa;wifi;-50;100;x@0;10.0.0.3;tv"
  = Err (MalformedRecord "0;10.0.0.3;tv").
Proof.
  apply (malformed_record_fails_decode
           "2@0;10.0.0.2;phone;aa:aa:aa:aa:aa:aa;wifi;-50;100;x@0;10.0.0.3;tv"
           ["0;10.0.0.2;phone;aa:aa:aa:aa:aa:aa;wifi;-50;100;x"]
           "0;10.0.0.3;tv" []).
  - simpl; lia.
  - vm_compute; reflexivity.
  - vm_compute; lia.
  - constructor; [solve_decodes|constructor].
Defined.

(** C4, as stated, fails: ["short"] is a device substring of
    [badAddressThenShort] that does not have eight fields, yet the decode
    ends with the [InvalidAddress] of the device substring before it. *)
Lemma malformed_record_not_always_reported :
  In "short" (devStrsOf badAddressThenShort) /\
  length (fields "short") <> 8 /\
  parseDevicesString badAddressThenShort = Err (InvalidAddress "zz") /\
  parseDevicesString badAddressThenShort <> Err (MalformedRecord "short").
Proof.
  split; [vm_compute; auto|].
  split; [vm_compute; lia|].
  split; [vm_compute; reflexivity|].
  vm_compute. discriminate.
Qed.

(** C5, as amended.  When field 3 of a device substring does not parse as
    a hardware address, the whole decode fails and returns no partial
    device list; the error is that of the first device substring that
    does not decode, so it is [InvalidAddress] when the substring has
    eight fields and all the device substrings before it decode. *)
Theorem invalid_address_fails_decode devices pre devStr post err :
  2 <= String.length devices ->
  devStrsOf devices = pre ++ devStr :: post ->
  Net.ParseMAC (field 3 devStr) = inl err ->
  (exists err', parseDevicesString devices = Err err') /\
  (length (fields devStr) = 8 -> Forall decodes pre ->
   parseDevicesString devices = Err (InvalidAddress (field 3 devStr))).
Proof.
  intros Hlen Hsplit Hmac.
  rewrite parseDevicesString_decodeAll, Hsplit by assumption.
  assert (Hbad : exists e, parseDevice devStr = inl e).
  { destruct (Nat.eq_dec (length (fields devStr)) 8) as [H8|H8].
    - rewrite (parseDevice_bad_mac _ err H8 Hmac). eauto.
    - rewrite (parseDevice_malformed _ H8). eauto. }
  destruct Hbad as [e He]. split.
  - destruct (proj1 (decodeAll_fails pre devStr post e He)) as [err' ->]. eauto.
  - intros H8 Hpre. pose proof (parseDevice_bad_mac _ err H8 Hmac) as Hb.
    rewrite (proj2 (decodeAll_fails pre devStr post _ Hb) Hpre). reflexivity.
Qed.

Lemma invalid_address_fails_decode_witness :
  parseDevicesString "2@0;10.0.0.2;phone;aa:aa:aa:aa:aa:aa;wifi;-50;100;x@0;10.0.0.3;tv;bb:bb;eth;;;x"
  = Err (InvalidAddress "bb:bb").
Proof.
  apply (invalid_address_fails_decode
           "2@0;10.0.0.2;phone;aa:aa:aa:aa:aa:aa;wifi;-50;100;x@0;10.0.0.3;tv;bb:bb;eth;;;x"
           ["0;10.0.0.2;phone;aa:aa:aa:aa:aa:aa;wifi;-50;100;x"]
           "0;10.0.0.3;tv;bb:bb;eth;;;x" [] (InvalidAddress "bb:bb")).
  - simpl; lia.
  - vm_compute; reflexivity.
  - vm_compute; reflexivity.
  - vm_compute; reflexivity.
  - constructor; [solve_decodes|constructor].
Defined.

(** C5, as stated, fails: field 3 of the second device substring of
    [shortThenBadAddress] is no hardware address, yet the decode ends
    with the [MalformedRecord] of the device substring before it. *)
Lemma invalid_address_not_always_reported :
  In "0;10.0.0.2;phone;zz;wifi;;;x" (devStrsOf shortThenBadAddress) /\
  Net.ParseMAC (field 3 "0;10.0.0.2;phone;zz;wifi;;;x") = inl (InvalidAddress "zz") /\
  parseDevicesString shortThenBadAddress = Err (MalformedRecord "short").
Proof.
  split; [vm_compute; auto|].
  split; vm_compute; reflexivity.
Qed.

(** C9.  Field 1 is parsed best-effort.  Whether a device substring is
    well formed does not depend on field 1, and a decode whose device
    substrings are all well formed succeeds whatever their fields 1 hold;
    each device carries what [net.ParseIP] makes of its field 1, which is
    the nil address when the field is empty or does not parse. *)
Theorem ip_is_best_effort devices :
  2 <= String.length devices ->
  Forall wellFormed (devStrsOf devices) ->
  exists devs,
    parseDevicesString devices = Ok devs /\
    Forall2 (fun devStr dev =>
               IP dev = Net.ParseIP (field 1 devStr) /\
               (field 1 devStr = "" \/ Net.ParseIP (field 1 devStr) = [] ->
                IP dev = []))
            (devStrsOf devices) devs.
Proof.
  intros Hlen Hwf. rewrite parseDevicesString_decodeAll by assumption.
  induction Hwf as [|devStr rest Hd _ (devs & Hdevs & Hall)]; simpl.
  - exists []. split; [reflexivity|constructor].
  - destruct (parseDevice_wellFormed _ Hd) as (mac & _ & ->).
    destruct (decodeAll rest) as [|more]; [discriminate|].
    injection Hdevs as <-. eexists. split; [reflexivity|].
    constructor; [|assumption]. simpl. split; [reflexivity|].
    intros [->|E]; [reflexivity|exact E].
Qed.

Lemma ip_is_best_effort_witness :
  exists dev1 dev2,
    parseDevicesString
      "2@0;;phone;aa:aa:aa:aa:aa:aa;wifi;-50;100;x@0;10.0.0.300;tv;bb:bb:bb:bb:bb:bb;eth;;;x"
    = Ok [dev1; dev2] /\ IP dev1 = [] /\ IP dev2 = [].
Proof.
  destruct (ip_is_best_effort
              "2@0;;phone;aa:aa:aa:aa:aa:aa;wifi;-50;100;x@0;10.0.0.300;tv;bb:bb:bb:bb:bb:bb;eth;;;x")
    as (devs & Hdevs & Hall).
  - simpl; lia.
  - compute_devStrs. repeat constructor; solve_wellFormed.
  - revert Hall. compute_devStrs. intros Hall.
    inversion Hall as [|? dev1 ? devs1 [_ H1] Hall1]; subst.
    inversion Hall1 as [|? dev2 ? devs2 [_ H2] Hall2]; subst.
    inversion Hall2; subst.
    exists dev1, dev2. split; [exact Hdevs|]. split.
    + apply H1. left. vm_compute; reflexivity.
    + apply H2. right. vm_compute; reflexivity.
Defined.

(** C6, as amended.  For a device substring the decoder gets to (those
    before it decode, it has eight fields and its address parses): content of
    field 5 or 6 that is neither empty nor numeric fails the whole decode
    with an [InvalidNumber] error; empty fields are no error, and a
    decoded device has [Signal] 0 for an empty field 5 and [LinkRate] 0
    for an empty field 6.  The example string decodes to exactly two
    devices, the second with [Signal] 0 and [LinkRate] 0. *)
Theorem number_fields_decode :
  (forall devices pre devStr post mac,
     2 <= String.length devices ->
     devStrsOf devices = pre ++ devStr :: post ->
     Forall decodes pre ->
     length (fields devStr) = 8 ->
     Net.ParseMAC (field 3 devStr) = inr mac ->
     (nonNumeric (field 5 devStr) \/ nonNumeric (field 6 devStr) ->
      exists num why,
        parseDevicesString devices = Err (InvalidNumber num why)) /\
     (numberOk (field 5 devStr) -> numberOk (field 6 devStr) ->
      exists dev,
        parseDevice devStr = inr dev /\
        (field 5 devStr = "" -> Signal dev = 0%Z) /\
        (field 6 devStr = "" -> LinkRate dev = 0%Z)) /\
     (forall devs,
        parseDevicesString devices = Ok devs ->
        exists dev,
          devs !! length pre = Some dev /\
          (field 5 devStr = "" -> Signal dev = 0%Z) /\
          (field 6 devStr = "" -> LinkRate dev = 0%Z))) /\
  (parseDevicesString twoDevices = Ok decodedTwoDevices /\
   exists dev1 dev2,
     decodedTwoDevices = [dev1; dev2] /\ Signal dev2 = 0%Z /\ LinkRate dev2 = 0%Z).
Proof.
  split;
    [|split; [vm_compute; reflexivity|do 2 eexists; repeat split; reflexivity]].
  intros devices pre devStr post mac Hlen Hsplit Hpre H8 Hmac.
  split; [|split].
  - intros Hnon.
    destruct (parseDevice_not_numeric _ mac H8 Hmac Hnon) as (num & why & Hbad).
    rewrite parseDevicesString_decodeAll, Hsplit by assumption.
    rewrite (proj2 (decodeAll_fails pre devStr post _ Hbad) Hpre). eauto.
  - intros H5 H6.
    assert (Hwf : wellFormed devStr) by (unfold wellFormed; eauto).
    destruct (parseDevice_wellFormed _ Hwf) as (mac' & _ & E).
    eexists. split; [exact E|]. apply parseDevice_empty_number, E.
  - intros devs. rewrite parseDevicesString_decodeAll, Hsplit by assumption.
    destruct (decodeAll_app pre (devStr :: post) Hpre) as (pdevs & Hp & ->).
    simpl. destruct (parseDevice devStr) as [|dev] eqn:Hdev; [discriminate|].
    destruct (decodeAll post) as [|more]; [discriminate|].
    intros [= <-]. exists dev.
    split; [|apply parseDevice_empty_number, Hdev].
    apply decodeAll_length in Hp. rewrite <- Hp.
    rewrite lookup_app_r, Nat.sub_diag by lia. reflexivity.
Qed.

Lemma number_fields_decode_witness :
  (exists num why,
     parseDevicesString nonNumericSignal = Err (InvalidNumber num why)) /\
  (exists dev,
     decodedTwoDevices !! 1 = Some dev /\
     Signal dev = 0%Z /\ LinkRate dev = 0%Z).
Proof.
  split.
  - destruct (proj1 number_fields_decode nonNumericSignal
                ["0;10.0.0.2;phone;aa:aa:aa:aa:aa:aa;wifi;-50;100;x"]
                "0;10.0.0.3;tv;bb:bb:bb:bb:bb:bb;eth;n/a;;x" [] (mac6 187))
      as (Hbad & _ & _).
    + simpl; lia.
    + vm_compute; reflexivity.
    + constructor; [solve_decodes|constructor].
    + vm_compute; reflexivity.
    + vm_compute; reflexivity.
    + apply Hbad. left. split; [vm_compute; discriminate|vm_compute; reflexivity].
  - destruct (proj1 number_fields_decode twoDevices
                ["0;10.0.0.2;phone;aa:aa:aa:aa:aa:aa;wifi;-50;100;x"]
                "0;10.0.0.3;tv;bb:bb:bb:bb:bb:bb;eth;;;x" [] (mac6 187))
      as (_ & _ & Hok).
    + simpl; lia.
    + vm_compute; reflexivity.
    + constructor; [solve_decodes|constructor].
    + vm_compute; reflexivity.
    + vm_compute; reflexivity.
    + destruct (Hok decodedTwoDevices (proj1 (proj2 number_fields_decode)))
        as (dev & Hdev & H5 & H6).
      exists dev. split; [exact Hdev|].
      split; [apply H5|apply H6]; vm_compute; reflexivity.
Defined.

(** C6, as stated, fails: field 5 of the only device substring of
    [badAddressAndSignal] is neither empty nor numeric, yet the decode
    ends with the [InvalidAddress] of its field 3, which is checked before
    the number fields. *)
Lemma invalid_number_not_always_reported :
  In "0;10.0.0.3;tv;zz;eth;n/a;;x" (devStrsOf badAddressAndSignal) /\
  length (fields "0;10.0.0.3;tv;zz;eth;n/a;;x") = 8 /\
  nonNumeric (field 5 "0;10.0.0.3;tv;zz;eth;n/a;;x") /\
  parseDevicesString badAddressAndSignal = Err (InvalidAddress "zz").
Proof.
  split; [vm_compute; auto|].
  split; [vm_compute; reflexivity|].
  split; [split; [vm_compute; discriminate|vm_compute; reflexivity]|].
  vm_compute; reflexivity.
Qed.

End Decoder.

(** ** The snapshot differ *)

Section Differ.

Implicit Types (dev : AttachedDevice) (old new devices : list AttachedDevice).
Implicit Types (diff : gmap string bool) (change : list ChangedDevice).
Implicit Types (k : string).

(** After the first loop the map holds the keys of the old snapshot. *)
Lemma markOld_dom old : forall diff,
  dom (markOld old diff) = list_to_set (keys old) ∪ dom diff.
Proof.
  induction old as [|dev old IH]; intros diff; simpl.
  - set_solver.
  - rewrite IH, dom_insert_L. set_solver.
Qed.

(** The second loop only appends to [change]. *)
Lemma findAdded_acc new : forall diff change,
  findAdded new diff change =
    ((findAdded new diff []).1, change ++ (findAdded new diff []).2).
Proof.
  induction new as [|dev new IH]; intros diff change; simpl.
  - rewrite app_nil_r. reflexivity.
  - destruct (diff !! key dev).
    + apply IH.
    + rewrite (IH diff (change ++ [_])), (IH diff [_]). simpl.
      rewrite <- app_assoc. reflexivity.
Qed.

(** It leaves in the map the keys that no new device has. *)
Lemma findAdded_dom new : forall diff change,
  dom (findAdded new diff change).1 = dom diff ∖ list_to_set (keys new).
Proof.
  induction new as [|dev new IH]; intros diff change; simpl.
  - set_solver.
  - destruct (diff !! key dev) eqn:E.
    + rewrite IH, dom_delete_L. set_solver.
    + rewrite IH. apply not_elem_of_dom in E. set_solver.
Qed.

(** What it appends are new devices, in the order of the new snapshot. *)
Lemma findAdded_sublist new : forall diff,
  exists la, (findAdded new diff []).2 = map added la /\ sublist la new.
Proof.
  induction new as [|dev new IH]; intros diff; simpl.
  - exists []. split; [reflexivity|constructor].
  - destruct (diff !! key dev).
    + destruct (IH (delete (key dev) diff)) as (la & -> & Hs).
      exists la. split; [reflexivity|]. constructor; assumption.
    + rewrite findAdded_acc. destruct (IH diff) as (la & -> & Hs).
      exists (dev :: la). split; [reflexivity|]. constructor; assumption.
Qed.

(** When no key occurs twice in the new snapshot, the added devices are
    those whose key the map did not hold. *)
Lemma findAdded_NoDup new : forall diff,
  NoDup (keys new) ->
  (findAdded new diff []).2 =
    map added (filter (fun dev => key dev ∉ dom diff) new).
Proof.
  induction new as [|dev new IH]; intros diff Hnd; simpl; [reflexivity|].
  apply NoDup_cons in Hnd as [Hfresh Hnd].
  destruct (diff !! key dev) eqn:E.
  - rewrite filter_cons_False by (intros H; apply H, elem_of_dom; eauto).
    rewrite (IH _ Hnd). f_equal.
    clear IH Hnd. induction new as [|d new IH]; [reflexivity|].
    simpl in Hfresh. apply not_elem_of_cons in Hfresh as [Hne Hfresh].
    rewrite !filter_cons, (IH Hfresh).
    destruct (decide (key d ∉ dom (delete (key dev) diff))) as [H|H],
             (decide (key d ∉ dom diff)) as [H'|H']; try reflexivity;
      exfalso; rewrite dom_delete_L in H; set_solver.
  - rewrite filter_cons_True by (apply not_elem_of_dom; exact E).
    rewrite findAdded_acc, (IH _ Hnd). reflexivity.
Qed.

(** The third loop appends the old devices whose key is still in the
    map. *)
Lemma findRemoved_filter old : forall diff change,
  findRemoved old diff change =
    change ++ map removed (filter (fun dev => key dev ∈ dom diff) old).
Proof.
  induction old as [|dev old IH]; intros diff change; simpl.
  - rewrite app_nil_r. reflexivity.
  - destruct (diff !! key dev) eqn:E.
    + rewrite filter_cons_True by (apply elem_of_dom; eauto).
      rewrite IH, <- app_assoc. reflexivity.
    + rewrite filter_cons_False by (apply not_elem_of_dom; exact E).
      apply IH.
Qed.

Lemma key_in_keys dev devices : dev ∈ devices -> key dev ∈ keys devices.
Proof. intros H. apply list_elem_of_fmap. eauto. Qed.

Lemma filter_in_ext (P Q : AttachedDevice -> Prop)
  `{!forall x, Decision (P x)} `{!forall x, Decision (Q x)} devices :
  (forall dev, dev ∈ devices -> P dev <-> Q dev) ->
  filter P devices = filter Q devices.
Proof.
  induction devices as [|d l IH]; intros Hext; [reflexivity|].
  rewrite !filter_cons, IH by (intros; apply Hext; right; assumption).
  pose proof (Hext d ltac:(left)) as Hd.
  destruct (decide (P d)), (decide (Q d)); tauto || reflexivity.
Qed.

(** The differ's result: added devices, a subsequence of the new
    snapshot, then the old devices whose key no new device has. *)
Lemma getChangedDevices_shape old new :
  exists la,
    sublist la new /\
    getChangedDevices old new =
      map added la ++
      map removed (filter (fun dev => key dev ∉ keys new) old).
Proof.
  unfold getChangedDevices.
  destruct (findAdded_sublist new (markOld old ∅)) as (la & Hla & Hs).
  pose proof (findAdded_dom new (markOld old ∅) []) as Hdom.
  destruct (findAdded new (markOld old ∅) []) as [diff change]. simpl in *.
  subst change. exists la. split; [assumption|].
  rewrite findRemoved_filter. do 2 f_equal.
  apply filter_in_ext. intros dev Hdev. apply key_in_keys in Hdev.
  rewrite Hdom, markOld_dom. set_solver.
Qed.

(** With no key twice in the new snapshot: the new devices whose key no
    old device has, then the old devices whose key no new device has. *)
Lemma getChangedDevices_NoDup old new :
  NoDup (keys new) ->
  getChangedDevices old new =
    map added (filter (fun dev => key dev ∉ keys old) new) ++
    map removed (filter (fun dev => key dev ∉ keys new) old).
Proof.
  intros Hnd. unfold getChangedDevices.
  pose proof (findAdded_NoDup new (markOld old ∅) Hnd) as Ha.
  pose proof (findAdded_dom new (markOld old ∅) []) as Hdom.
  destruct (findAdded new (markOld old ∅) []) as [diff change]. simpl in *.
  subst change. rewrite findRemoved_filter. f_equal.
  - f_equal. apply list_filter_iff. intros dev.
    rewrite markOld_dom. set_solver.
  - f_equal. apply filter_in_ext. intros dev Hdev. apply key_in_keys in Hdev.
    rewrite Hdom, markOld_dom. set_solver.
Qed.

(** *** Keys identify hardware addresses *)

(** Two hexadecimal digits back to the byte they stand for. *)
Lemma hexDigits_byte (b : byte) :
  match Net.hexval (Net.hexDigit (Z.shiftr (code b) 4)),
        Net.hexval (Net.hexDigit (Z.land (code b) 15)) with
  | Some hi, Some lo => byte_of (hi * 16 + lo)
  | _, _ => Net.zero
  end = b.
Proof. destruct b as [[] [] [] [] [] [] [] []]; vm_compute; reflexivity. Qed.

Lemma hexBytes_inj (a : Net.HardwareAddr) : forall first a',
  Net.hexBytes first a = Net.hexBytes first a' -> a = a'.
Proof.
  induction a as [|b r IH]; intros first [|b' r']; simpl; intros E.
  - reflexivity.
  - destruct first; discriminate.
  - destruct first; discriminate.
  - assert (E' : Net.hexDigit (Z.shiftr (code b) 4) = Net.hexDigit (Z.shiftr (code b') 4) /\
                 Net.hexDigit (Z.land (code b) 15) = Net.hexDigit (Z.land (code b') 15) /\
                 Net.hexBytes false r = Net.hexBytes false r').
    { destruct first; injection E; auto. }
    destruct E' as (Ehi & Elo & Er).
    rewrite <- (hexDigits_byte b), <- (hexDigits_byte b'), Ehi, Elo.
    f_equal. apply (IH false), Er.
Qed.

(** Two devices are filed under the same key exactly when they have the
    same hardware address. *)
Lemma key_MAC dev1 dev2 : key dev1 = key dev2 <-> MAC dev1 = MAC dev2.
Proof.
  split.
  - apply hexBytes_inj.
  - unfold key. intros ->. reflexivity.
Qed.

(** *** Counting the changes filed under a key *)

Lemma events_app ch k (l1 l2 : list ChangedDevice) :
  events ch k (l1 ++ l2) = events ch k l1 + events ch k l2.
Proof. unfold events. rewrite filter_app, length_app. reflexivity. Qed.

Lemma events_added ch k devices :
  events ch k (map added devices) =
    if decide (ch = DeviceAdded) then count k devices else 0.
Proof.
  unfold events, count. induction devices as [|dev l IH]; simpl.
  - destruct (decide _); reflexivity.
  - rewrite !filter_cons. simpl.
    destruct (decide (ch = DeviceAdded)) as [->|Hne].
    + destruct (decide (key dev = k)) as [Hk|Hk].
      * rewrite decide_True by auto. simpl. f_equal. exact IH.
      * rewrite decide_False by tauto. exact IH.
    + rewrite decide_False by (intros [? _]; congruence). exact IH.
Qed.

Lemma events_removed ch k devices :
  events ch k (map removed devices) =
    if decide (ch = DeviceRemoved) then count k devices else 0.
Proof.
  unfold events, count. induction devices as [|dev l IH]; simpl.
  - destruct (decide _); reflexivity.
  - rewrite !filter_cons. simpl.
    destruct (decide (ch = DeviceRemoved)) as [->|Hne].
    + destruct (decide (key dev = k)) as [Hk|Hk].
      * rewrite decide_True by auto. simpl. f_equal. exact IH.
      * rewrite decide_False by tauto. exact IH.
    + rewrite decide_False by (intros [? _]; congruence). exact IH.
Qed.

(** Filtering on a property of the key keeps or drops a key's devices
    together. *)
Lemma count_filter (Q : string -> Prop) `{!forall k, Decision (Q k)} k devices :
  count k (filter (fun dev => Q (key dev)) devices) =
    if decide (Q k) then count k devices else 0.
Proof.
  unfold count. induction devices as [|dev l IH]; simpl.
  - destruct (decide _); reflexivity.
  - rewrite (filter_cons (fun dev => Q (key dev))).
    destruct (decide (key dev = k)) as [Hk|Hk].
    + subst k. destruct (decide (Q (key dev))) as [Hq|Hq].
      * rewrite !filter_cons_True by reflexivity. simpl. f_equal. exact IH.
      * exact IH.
    + rewrite (filter_cons_False (fun d => key d = k) dev l) by exact Hk.
      destruct (decide (Q (key dev))); [|exact IH].
      rewrite filter_cons_False by exact Hk. exact IH.
Qed.

Lemma count_absent k devices : k ∉ keys devices -> count k devices = 0.
Proof.
  unfold count. induction devices as [|dev l IH]; simpl; [reflexivity|].
  intros H. apply not_elem_of_cons in H as [Hne H].
  rewrite filter_cons_False by congruence. apply IH, H.
Qed.

Lemma count_NoDup k devices :
  NoDup (keys devices) -> k ∈ keys devices -> count k devices = 1.
Proof.
  unfold count. induction devices as [|dev l IH]; simpl; intros Hnd Hin.
  - inversion Hin.
  - apply NoDup_cons in Hnd as [Hfresh Hnd].
    apply elem_of_cons in Hin as [->|Hin].
    + rewrite filter_cons_True by reflexivity. simpl. f_equal.
      apply (count_absent _ _ Hfresh).
    + rewrite filter_cons_False by (intros E; subst k; contradiction).
      apply IH; assumption.
Qed.

(** *** What the specification says about the differ *)

(** C1, as amended.  For two snapshots in each of which no MAC key occurs
    twice: one [Removed] change and no [Added] one for a key only in the
    old snapshot, one [Added] change and no [Removed] one for a key only
    in the new snapshot, and no change for a key in both, whatever the
    other fields of the devices are. *)
Theorem presence_changes_only old new k :
  NoDup (keys old) -> NoDup (keys new) ->
  let changes := getChangedDevices old new in
  (k ∈ keys old -> k ∉ keys new ->
   events DeviceRemoved k changes = 1 /\ events DeviceAdded k changes = 0) /\
  (k ∈ keys new -> k ∉ keys old ->
   events DeviceAdded k changes = 1 /\ events DeviceRemoved k changes = 0) /\
  (k ∈ keys old -> k ∈ keys new ->
   events DeviceAdded k changes = 0 /\ events DeviceRemoved k changes = 0).
Proof.
  intros Hold Hnew changes. subst changes.
  rewrite (getChangedDevices_NoDup old new Hnew).
  rewrite !events_app, !events_added, !events_removed. simpl.
  pose proof (count_filter (fun k => k ∉ keys old) k new) as Ea.
  pose proof (count_filter (fun k => k ∉ keys new) k old) as Er.
  cbv beta in Ea, Er. rewrite Ea, Er. clear Ea Er.
  split; [|split]; intros H1 H2;
    repeat match goal with |- context [decide ?P] => destruct (decide P) end;
    try contradiction; rewrite ?Nat.add_0_r; auto using count_NoDup.
Qed.

Lemma presence_changes_only_witness :
  let changes := getChangedDevices [deviceA; deviceB] [device 187 "B, renamed" (-40); deviceC] in
  (events DeviceRemoved "aa:aa" changes = 1 /\ events DeviceAdded "aa:aa" changes = 0) /\
  (events DeviceAdded "cc:cc" changes = 1 /\ events DeviceRemoved "cc:cc" changes = 0) /\
  (events DeviceAdded "bb:bb" changes = 0 /\ events DeviceRemoved "bb:bb" changes = 0).
Proof.
  assert (Hold : NoDup (keys [deviceA; deviceB])).
  { vm_compute. repeat constructor; set_solver. }
  assert (Hnew : NoDup (keys [device 187 "B, renamed" (-40); deviceC])).
  { vm_compute. repeat constructor; set_solver. }
  intros changes. split; [|split].
  - apply (presence_changes_only _ _ "aa:aa" Hold Hnew); vm_compute; set_solver.
  - apply (presence_changes_only _ _ "cc:cc" Hold Hnew); vm_compute; set_solver.
  - apply (presence_changes_only _ _ "bb:bb" Hold Hnew); vm_compute; set_solver.
Defined.

(** C1, as stated, fails on a snapshot that reports a MAC twice: a key in
    both snapshots gets an [Added] change, a key only in the new one two
    [Added] changes, a key only in the old one two [Removed] changes. *)
Lemma duplicate_key_changes :
  key deviceA ∈ keys [deviceA] /\ key deviceA ∈ keys [deviceA; deviceA] /\
  events DeviceAdded (key deviceA)
    (getChangedDevices [deviceA] [deviceA; deviceA]) = 1 /\
  events DeviceAdded (key deviceA)
    (getChangedDevices [] [deviceA; deviceA]) = 2 /\
  events DeviceRemoved (key deviceA)
    (getChangedDevices [deviceA; deviceA] []) = 2.
Proof.
  split; [vm_compute; set_solver|].
  split; [vm_compute; set_solver|].
  repeat split; vm_compute; reflexivity.
Qed.

(** C7, as amended.  Diffing a snapshot in which no MAC key occurs twice
    against itself yields no change. *)
Theorem self_diff_is_empty devices :
  NoDup (keys devices) -> getChangedDevices devices devices = [].
Proof.
  intros Hnd. rewrite (getChangedDevices_NoDup _ _ Hnd).
  assert (E : filter (fun dev => key dev ∉ keys devices) devices = []).
  { rewrite (filter_in_ext _ (fun _ => False)).
    - induction devices as [|dev l IH]; [reflexivity|].
      rewrite filter_cons_False by tauto. apply IH.
      apply NoDup_cons in Hnd. tauto.
    - intros dev Hdev. apply key_in_keys in Hdev. tauto. }
  rewrite E. reflexivity.
Qed.

Lemma self_diff_is_empty_witness :
  getChangedDevices [deviceA; deviceB; deviceC] [deviceA; deviceB; deviceC] = [].
Proof.
  apply (self_diff_is_empty [deviceA; deviceB; deviceC]).
  vm_compute. repeat constructor; set_solver.
Defined.

(** C7, as stated, fails on a snapshot that reports a MAC twice: diffed
    against itself it yields an [Added] change. *)
Lemma self_diff_of_duplicate :
  getChangedDevices [deviceA; deviceA] [deviceA; deviceA] = [added deviceA].
Proof. vm_compute. reflexivity. Qed.

End Differ.

(** ** The polling engine *)

Section Engine.

Implicit Types (devices old new snapshot : list AttachedDevice).
Implicit Types (calls : list Call) (poll : Poll) (err : error).

(** Against the empty baseline every device is new. *)
Lemma findAdded_empty new : forall change,
  findAdded new ∅ change = (∅, change ++ map added new).
Proof.
  induction new as [|dev new IH]; intros change; simpl.
  - rewrite app_nil_r. reflexivity.
  - rewrite lookup_empty, IH, <- app_assoc. reflexivity.
Qed.

Lemma getChangedDevices_nil new : getChangedDevices [] new = map added new.
Proof. unfold getChangedDevices. simpl. rewrite findAdded_empty. reflexivity. Qed.

Lemma watcher_snoc w ticks poll :
  watcher w (ticks ++ [poll]) = tick (watcher w ticks) poll.
Proof. unfold watcher. apply foldl_snoc. Qed.

(** Ticks that fail report their errors and keep the baseline. *)
Lemma watcher_failures failures : forall devices calls,
  Forall (fun poll => exists err, getDevices poll = Err err) failures ->
  exists errs,
    length errs = length failures /\
    watcher (Watching devices calls) failures =
      Watching devices (calls ++ map Failed errs).
Proof.
  induction failures as [|poll failures IH]; intros devices calls Hf.
  - exists []. simpl. rewrite app_nil_r. split; reflexivity.
  - inversion Hf as [|? ? [err Herr] Hf']; subst.
    destruct (IH devices (calls ++ [Failed err]) Hf') as (errs & Hlen & E).
    exists (err :: errs). split; [simpl; congruence|].
    unfold watcher in *. simpl. rewrite Herr, E, <- app_assoc. reflexivity.
Qed.

(** X18.  While the watcher runs, its baseline is the snapshot of the
    last tick that fetched one (the empty snapshot before the first):
    failed ticks never touch it. *)
Lemma baseline_is_last_fetched ticks : forall devices calls,
  OnDeviceChanged ticks = Watching devices calls -> devices = lastFetched ticks.
Proof.
  unfold OnDeviceChanged, lastFetched.
  induction ticks as [|poll ticks IH] using rev_ind; intros devices calls.
  - intros [= <- _]. reflexivity.
  - rewrite watcher_snoc, foldl_snoc.
    destruct (watcher (Watching [] []) ticks) as [devices0 calls0|calls0];
      [|discriminate].
    specialize (IH devices0 calls0 eq_refl). rewrite <- IH. simpl.
    destruct (getDevices poll); intros [= <- _]; reflexivity.
Qed.

(** C2.  On a tick that fetches the snapshot [new], the changes against
    the baseline [old] are the [Added] ones, for devices in the order of
    [new], followed by the [Removed] ones, for devices in the order of
    [old], and the listener is called with them in that order.  For the
    baseline A, B and the new snapshot B, C they are [Added] C, then
    [Removed] A. *)
Theorem changes_added_then_removed :
  (forall old new calls poll,
     getDevices poll = Ok new ->
     exists la lr,
       sublist la new /\ sublist lr old /\
       getChangedDevices old new = map added la ++ map removed lr /\
       tick (Watching old calls) poll =
         Watching new
           (calls ++ map Changed (map added la) ++ map Changed (map removed lr))) /\
  getChangedDevices [deviceA; deviceB] [deviceB; deviceC] =
    [added deviceC; removed deviceA].
Proof.
  split; [|vm_compute; reflexivity].
  intros old new calls poll Hpoll.
  destruct (getChangedDevices_shape old new) as (la & Hla & E).
  exists la, (filter (fun dev => key dev ∉ keys new) old).
  split; [assumption|]. split; [apply sublist_filter|]. split; [assumption|].
  simpl. rewrite Hpoll, E, map_app. reflexivity.
Qed.

Lemma changes_added_then_removed_witness :
  exists la lr,
    sublist la decodedTwoDevices /\ sublist lr [deviceA; deviceB] /\
    getChangedDevices [deviceA; deviceB] decodedTwoDevices =
      map added la ++ map removed lr /\
    tick (Watching [deviceA; deviceB] []) (answers twoDevices) =
      Watching decodedTwoDevices
        ([] ++ map Changed (map added la) ++ map Changed (map removed lr)).
Proof.
  apply (proj1 changes_added_then_removed
           [deviceA; deviceB] decodedTwoDevices [] (answers twoDevices)).
  vm_compute; reflexivity.
Defined.

(** C3.  On a tick whose login or whose device fetch fails, the listener
    is called once, with no change and the error, and the baseline stays;
    a following tick that succeeds is diffed against that baseline. *)
Theorem failed_tick_keeps_baseline devices calls poll err :
  Login (loginReply poll) = Some err \/
  (Login (loginReply poll) = None /\ Devices (devicesReply poll) = Err err) ->
  tick (Watching devices calls) poll = Watching devices (calls ++ [Failed err]) /\
  forall poll' updatedDevices,
    getDevices poll' = Ok updatedDevices ->
    watcher (Watching devices calls) [poll; poll'] =
      Watching updatedDevices
        (calls ++ [Failed err] ++
         map Changed (getChangedDevices devices updatedDevices)).
Proof.
  intros Hfail.
  assert (Hget : getDevices poll = Err err).
  { unfold getDevices. destruct Hfail as [-> | [-> ->]]; reflexivity. }
  assert (Htick : tick (Watching devices calls) poll =
                  Watching devices (calls ++ [Failed err])).
  { simpl. rewrite Hget. reflexivity. }
  split; [exact Htick|].
  intros poll' updatedDevices Hok.
  change (watcher (Watching devices calls) [poll; poll'])
    with (tick (tick (Watching devices calls) poll) poll').
  rewrite Htick. simpl. rewrite Hok, <- app_assoc. reflexivity.
Qed.

Lemma failed_tick_keeps_baseline_witness :
  tick (Watching [deviceA; deviceB] []) loginRefused =
    Watching [deviceA; deviceB] [Failed (AuthFailed 401)] /\
  tick (Watching [deviceA; deviceB] []) fetchRefused =
    Watching [deviceA; deviceB] [Failed (FetchFailed 1)] /\
  watcher (Watching [deviceA; deviceB] []) [fetchRefused; answers twoDevices] =
    Watching decodedTwoDevices
      ([Failed (FetchFailed 1)] ++
       map Changed (getChangedDevices [deviceA; deviceB] decodedTwoDevices)).
Proof.
  split; [|split].
  - apply (failed_tick_keeps_baseline [deviceA; deviceB] [] loginRefused).
    left. reflexivity.
  - apply (failed_tick_keeps_baseline [deviceA; deviceB] [] fetchRefused).
    right. split; reflexivity.
  - apply (failed_tick_keeps_baseline [deviceA; deviceB] [] fetchRefused
             (FetchFailed 1)).
    + right. split; reflexivity.
    + vm_compute; reflexivity.
Defined.

(** C8.  The engine starts from the empty baseline: the first tick that
    succeeds, whatever failed ticks came before it, calls the listener
    with an [Added] change for every device of the fetched snapshot, in
    order, and with no [Removed] change. *)
Theorem first_tick_reports_all_added failures poll snapshot :
  Forall (fun poll => exists err, getDevices poll = Err err) failures ->
  getDevices poll = Ok snapshot ->
  exists errs,
    OnDeviceChanged failures = Watching [] (map Failed errs) /\
    OnDeviceChanged (failures ++ [poll]) =
      Watching snapshot (map Failed errs ++ map Changed (map added snapshot)).
Proof.
  intros Hf Hok. unfold OnDeviceChanged.
  destruct (watcher_failures failures [] [] Hf) as (errs & _ & E).
  exists errs. split; [exact E|].
  rewrite watcher_snoc, E. simpl. rewrite Hok, getChangedDevices_nil.
  reflexivity.
Qed.

Lemma first_tick_reports_all_added_witness :
  exists errs,
    OnDeviceChanged [loginRefused; fetchRefused] = Watching [] (map Failed errs) /\
    OnDeviceChanged ([loginRefused; fetchRefused] ++ [answers twoDevices]) =
      Watching decodedTwoDevices
        (map Failed errs ++ map Changed (map added decodedTwoDevices)).
Proof.
  apply (first_tick_reports_all_added
           [loginRefused; fetchRefused] (answers twoDevices) decodedTwoDevices).
  - repeat constructor; eexists; vm_compute; reflexivity.
  - vm_compute; reflexivity.
Defined.

End Engine.

(** * More about the code *)

(** ** More about the record decoder *)

Section DecoderMore.

Implicit Types (devices devStr piece : string) (devStrs : list string).
Implicit Types (dev : AttachedDevice) (devs : list AttachedDevice).

(** *** What [strings.Split] cuts *)

Lemma Split_length s sep :
  length (Strings.Split s sep) = S (occurrences sep s).
Proof.
  induction s as [|c r IH]; simpl; [reflexivity|].
  destruct (Ascii.eqb c sep); simpl; [congruence|].
  destruct (Strings.Split r sep); simpl in *; congruence.
Qed.

Lemma Split_no_sep s sep : forall piece,
  piece ∈ Strings.Split s sep -> has sep piece = false.
Proof.
  induction s as [|c r IH]; simpl; intros piece Hin.
  - apply list_elem_of_singleton in Hin as ->. reflexivity.
  - destruct (Ascii.eqb c sep) eqn:E.
    + apply elem_of_cons in Hin as [->|Hin]; [reflexivity|]. apply IH, Hin.
    + destruct (Strings.Split r sep) as [|p ps].
      * apply list_elem_of_singleton in Hin as ->. simpl. rewrite E. reflexivity.
      * apply elem_of_cons in Hin as [->|Hin].
        -- simpl. rewrite E. apply IH. left.
        -- apply IH. right. exact Hin.
Qed.

Lemma Split_keeps_absent c s sep : forall piece,
  has c s = false -> piece ∈ Strings.Split s sep -> has c piece = false.
Proof.
  induction s as [|c' r IH]; simpl; intros piece Hc Hin.
  - apply list_elem_of_singleton in Hin as ->. reflexivity.
  - apply orb_false_iff in Hc as [Hc' Hc].
    destruct (Ascii.eqb c' sep).
    + apply elem_of_cons in Hin as [->|Hin]; [reflexivity|]. apply IH; assumption.
    + destruct (Strings.Split r sep) as [|p ps].
      * apply list_elem_of_singleton in Hin as ->. simpl. rewrite Hc'. reflexivity.
      * apply elem_of_cons in Hin as [->|Hin].
        -- simpl. rewrite Hc'. apply IH; [assumption|left].
        -- apply IH; [assumption|right; exact Hin].
Qed.

Lemma part_in parts i : i < length parts -> part parts i ∈ parts.
Proof.
  intros Hi. unfold part. apply list_elem_of_In, nth_In, Hi.
Qed.

(** *** What a decoded device is made of *)

Lemma parseDevice_inr devStr dev :
  parseDevice devStr = inr dev ->
  length (fields devStr) = 8 /\
  Net.ParseMAC (field 3 devStr) = inr (MAC dev) /\
  IP dev = Net.ParseIP (field 1 devStr) /\
  Name dev = field 2 devStr /\
  Type_ dev = field 4 devStr /\
  Signal dev = fst (Strconv.Atoi (field 5 devStr)) /\
  LinkRate dev = fst (Strconv.Atoi (field 6 devStr)).
Proof.
  intros Hdev.
  assert (Hwf : wellFormed devStr) by (apply decodes_wellFormed; eexists; exact Hdev).
  destruct (parseDevice_wellFormed _ Hwf) as (mac & Hmac & E).
  rewrite E in Hdev. injection Hdev as <-. simpl.
  destruct Hwf as (H8 & _). repeat split; assumption || reflexivity.
Qed.

Lemma decodeAll_wellFormed devStrs :
  Forall wellFormed devStrs <-> exists devs, decodeAll devStrs = inr devs.
Proof.
  split.
  - induction 1 as [|devStr rest Hd _ [devs IH]]; simpl; [eauto|].
    destruct (parseDevice_wellFormed _ Hd) as (mac & _ & ->).
    rewrite IH. eauto.
  - intros [devs E]. apply decodeAll_Forall2 in E.
    induction E as [|devStr dev rest devs' Hd _ IH]; constructor; [|exact IH].
    apply decodes_wellFormed. eexists. exact Hd.
Qed.

Lemma parseDevicesString_Ok devices devs :
  parseDevicesString devices = Ok devs <->
  2 <= String.length devices /\ decodeAll (devStrsOf devices) = inr devs.
Proof.
  split.
  - intros E. assert (Hlen : 2 <= String.length devices).
    { destruct (Nat.lt_ge_cases (String.length devices) 2) as [Hlt|]; [|assumption].
      unfold parseDevicesString in E.
      destruct (Nat.ltb_spec (String.length devices) 2); [discriminate|lia]. }
    split; [assumption|]. rewrite parseDevicesString_decodeAll in E by assumption.
    destruct (decodeAll _); congruence.
  - intros [Hlen E]. rewrite parseDevicesString_decodeAll, E by assumption.
    reflexivity.
Qed.

(** From a decoded device back to the device substring it was made of. *)
Lemma decoded_from devices devs dev :
  parseDevicesString devices = Ok devs -> dev ∈ devs ->
  exists devStr, devStr ∈ devStrsOf devices /\ parseDevice devStr = inr dev.
Proof.
  intros E Hin. apply parseDevicesString_Ok in E as [_ E].
  apply decodeAll_Forall2 in E.
  apply list_elem_of_lookup in Hin as [i Hi].
  destruct (Forall2_lookup_r _ _ _ _ _ E Hi) as (devStr & Hs & Hd).
  exists devStr. split; [|exact Hd]. apply list_elem_of_lookup. eauto.
Qed.

(** The first device substring that does not decode, if there is one. *)
Lemma decodeAll_inl devStrs err :
  decodeAll devStrs = inl err ->
  exists pre devStr post,
    devStrs = pre ++ devStr :: post /\ Forall decodes pre /\
    parseDevice devStr = inl err.
Proof.
  induction devStrs as [|devStr rest IH]; simpl; [discriminate|].
  destruct (parseDevice devStr) as [e|dev] eqn:Hd.
  - intros [= ->]. exists [], devStr, rest. repeat split; [constructor|exact Hd].
  - destruct (decodeAll rest) as [e|devs]; [|discriminate].
    intros [= ->]. destruct (IH eq_refl) as (pre & bad & post & -> & Hpre & Hbad).
    exists (devStr :: pre), bad, post. repeat split; [|exact Hbad].
    constructor; [eexists; exact Hd|exact Hpre].
Qed.

(** *** The lengths [net.ParseMAC] accepts *)

Lemma macGroups_length n : forall s e hw,
  Net.macGroups n s e = Some hw -> length hw = n.
Proof.
  induction n as [|n IH]; intros s e hw; cbn [Net.macGroups].
  - intros [= <-]. reflexivity.
  - destruct (Net.xtoi2 s e) as [b []]; [|discriminate].
    destruct (Net.macGroups n (skip 3 s) e) as [hw'|] eqn:E;
      cbv [fmap option_fmap option_map]; [|discriminate].
    intros [= <-]. simpl. f_equal. apply (IH _ _ _ E).
Qed.

Lemma macQuads_length k : forall s e hw,
  Net.macQuads k s e = Some hw -> length hw = 2 * k.
Proof.
  induction k as [|k IH]; intros s e hw; cbn [Net.macQuads].
  - intros [= <-]. reflexivity.
  - destruct (Net.xtoi2 (upto 2 s) "000") as [b1 []]; [|discriminate].
    destruct (Net.xtoi2 (skip 2 s) e) as [b2 []]; [|discriminate].
    destruct (Net.macQuads k (skip 5 s) e) as [hw'|] eqn:E;
      cbv [fmap option_fmap option_map]; [|discriminate].
    intros [= <-]. simpl. rewrite (IH _ _ _ E). lia.
Qed.

Lemma macLen_cases n : Net.macLen n = true -> n = 6 \/ n = 8 \/ n = 20.
Proof.
  unfold Net.macLen. intros H.
  apply orb_true_iff in H as [H|H]; [apply orb_true_iff in H as [H|H]|];
    apply Nat.eqb_eq in H; auto.
Qed.

Lemma ParseMAC_length s hw :
  Net.ParseMAC s = inr hw ->
  length hw = 6 \/ length hw = 8 \/ length hw = 20.
Proof.
  unfold Net.ParseMAC. cbv zeta.
  set (n3 := (String.length s + 1) / 3).
  set (n5 := 2 * (String.length s + 1) / 5).
  destruct (String.length s <? 14)%nat; [discriminate|].
  destruct (String.get 2 s) as [s2|]; [|discriminate].
  destruct (String.get 4 s) as [s4|]; [|discriminate].
  destruct (Ascii.eqb s2 ":" || Ascii.eqb s2 "-").
  - destruct (negb (Nat.eqb _ 0)); [discriminate|].
    destruct (Net.macLen n3) eqn:Hn; cbn [negb]; [|discriminate].
    destruct (Net.macGroups n3 s s2) as [hw'|] eqn:E; [|discriminate].
    intros [= <-]. rewrite (macGroups_length _ _ _ _ E).
    apply macLen_cases, Hn.
  - destruct (Ascii.eqb s4 "."); [|discriminate].
    destruct (negb (Nat.eqb _ 0)); [discriminate|].
    destruct (Net.macLen n5) eqn:Hn; cbn [negb]; [|discriminate].
    destruct (Net.macQuads (n5 / 2) s s4) as [hw'|] eqn:E; [|discriminate].
    intros [= <-]. rewrite (macQuads_length _ _ _ _ E).
    apply macLen_cases in Hn. clearbody n5.
    destruct Hn as [-> | [-> | ->]]; vm_compute; auto.
Qed.

(** *** Properties of the decoder *)

(** X1.  The two-byte offset only fits a prefix of one digit and [@]: an
    input with nothing behind its first two bytes, or with [@] as its third
    byte (as when the count has two digits), has an empty first device
    substring and always fails with [MalformedRecord] for it. *)
Theorem empty_first_record_fails c1 c2 :
  parseDevicesString (String c1 (String c2 "")) = Err (MalformedRecord "") /\
  forall rest,
    parseDevicesString (String c1 (String c2 (String "@" rest))) =
      Err (MalformedRecord "").
Proof.
  split; [reflexivity|]. intros rest.
  rewrite parseDevicesString_decodeAll by (simpl; lia).
  reflexivity.
Qed.

(** X2.  The decode succeeds exactly on the inputs of two bytes or more
    all of whose device substrings are well formed: eight fields, a
    hardware address that parses, and number fields that are empty or
    taken by [strconv.Atoi]. *)
Theorem decode_succeeds_iff devices :
  (exists devs, parseDevicesString devices = Ok devs) <->
  2 <= String.length devices /\ Forall wellFormed (devStrsOf devices).
Proof.
  split.
  - intros [devs E]. apply parseDevicesString_Ok in E as [Hlen E].
    split; [assumption|]. apply decodeAll_wellFormed. eauto.
  - intros [Hlen Hwf]. apply decodeAll_wellFormed in Hwf as [devs E].
    exists devs. apply parseDevicesString_Ok. auto.
Qed.

(** X3.  A decoded list has one device for each [@]-separated piece of
    the input behind its first two bytes, whatever count those two bytes
    announce; in particular it is never empty. *)
Theorem decoded_list_never_empty devices devs :
  parseDevicesString devices = Ok devs ->
  length devs = S (occurrences "@" (skip 2 devices)) /\ devs <> [].
Proof.
  intros E. apply parseDevicesString_Ok in E as [_ E].
  apply decodeAll_length in E. unfold devStrsOf in E.
  rewrite Split_length in E. split; [exact E|].
  intros ->. discriminate.
Qed.

Lemma decoded_list_never_empty_witness :
  length decodedTwoDevices = 2 /\ decodedTwoDevices <> [].
Proof.
  apply (decoded_list_never_empty twoDevices decodedTwoDevices).
  vm_compute; reflexivity.
Defined.

(** X4.  The decoder returns the error [err] exactly when some device
    substring fails with [err] and all those before it decode: the error
    of the first failure, in input order. *)
Theorem decode_error_is_first_failure devices err :
  parseDevicesString devices = Err err <->
  2 <= String.length devices /\
  exists pre devStr post,
    devStrsOf devices = pre ++ devStr :: post /\
    Forall decodes pre /\ parseDevice devStr = inl err.
Proof.
  split.
  - intros E. assert (Hlen : 2 <= String.length devices).
    { destruct (Nat.lt_ge_cases (String.length devices) 2) as [Hlt|]; [|assumption].
      unfold parseDevicesString in E.
      destruct (Nat.ltb_spec (String.length devices) 2); [discriminate|lia]. }
    split; [assumption|]. rewrite parseDevicesString_decodeAll in E by assumption.
    apply decodeAll_inl. destruct (decodeAll _); congruence.
  - intros (Hlen & pre & devStr & post & Hsplit & Hpre & Hbad).
    rewrite parseDevicesString_decodeAll, Hsplit by assumption.
    rewrite (proj2 (decodeAll_fails pre devStr post err Hbad) Hpre). reflexivity.
Qed.

(** X5.  Fields 0 and 7 of a device substring play no part: two device
    substrings of eight fields that agree on fields 1 to 6 decode to the
    same device, or fail with the same error. *)
Theorem reserved_fields_are_ignored devStr devStr' :
  length (fields devStr) = 8 ->
  length (fields devStr') = 8 ->
  (forall i, 1 <= i <= 6 -> field i devStr = field i devStr') ->
  parseDevice devStr = parseDevice devStr'.
Proof.
  intros H8 H8' Hsame.
  pose proof (Hsame 1 ltac:(lia)) as E1. pose proof (Hsame 2 ltac:(lia)) as E2.
  pose proof (Hsame 3 ltac:(lia)) as E3. pose proof (Hsame 4 ltac:(lia)) as E4.
  pose proof (Hsame 5 ltac:(lia)) as E5. pose proof (Hsame 6 ltac:(lia)) as E6.
  destruct (Net.ParseMAC (field 3 devStr)) as [err|mac] eqn:Hmac.
  - rewrite (parseDevice_bad_mac _ err H8 Hmac). rewrite E3 in Hmac.
    rewrite (parseDevice_bad_mac _ err H8' Hmac), E3. reflexivity.
  - rewrite (parseDevice_numbers _ mac H8 Hmac). rewrite E3 in Hmac.
    rewrite (parseDevice_numbers _ mac H8' Hmac), E1, E2, E4, E5, E6.
    reflexivity.
Qed.

Lemma reserved_fields_are_ignored_witness :
  parseDevice "0;10.0.0.3;tv;bb:bb:bb:bb:bb:bb;eth;-61;54;x" =
  parseDevice "wired;10.0.0.3;tv;bb:bb:bb:bb:bb:bb;eth;-61;54;Allow".
Proof.
  apply (reserved_fields_are_ignored
           "0;10.0.0.3;tv;bb:bb:bb:bb:bb:bb;eth;-61;54;x"
           "wired;10.0.0.3;tv;bb:bb:bb:bb:bb:bb;eth;-61;54;Allow").
  - vm_compute; reflexivity.
  - vm_compute; reflexivity.
  - intros i Hi.
    assert (Hc : i = 1 \/ i = 2 \/ i = 3 \/ i = 4 \/ i = 5 \/ i = 6) by lia.
    destruct Hc as [-> | [-> | [-> | [-> | [-> | ->]]]]]; vm_compute; reflexivity.
Defined.

(** X6.  The name and the type of a decoded device hold neither [;] nor
    [@]: text with a separator in it cannot come through the decoder. *)
Theorem decoded_text_has_no_separator devices devs dev :
  parseDevicesString devices = Ok devs -> dev ∈ devs ->
  has ";" (Name dev) = false /\ has "@" (Name dev) = false /\
  has ";" (Type_ dev) = false /\ has "@" (Type_ dev) = false.
Proof.
  intros E Hin. destruct (decoded_from _ _ _ E Hin) as (devStr & Hs & Hd).
  apply Split_no_sep in Hs.
  apply parseDevice_inr in Hd as (H8 & _ & _ & -> & -> & _).
  assert (H2 : field 2 devStr ∈ fields devStr) by (apply part_in; lia).
  assert (H4 : field 4 devStr ∈ fields devStr) by (apply part_in; lia).
  repeat split;
    solve [ eapply Split_no_sep; eassumption
          | eapply Split_keeps_absent; eassumption ].
Qed.

Lemma decoded_text_has_no_separator_witness :
  Forall (fun dev => has ";" (Name dev) = false /\ has "@" (Name dev) = false /\
                     has ";" (Type_ dev) = false /\ has "@" (Type_ dev) = false)
         decodedTwoDevices.
Proof.
  apply Forall_forall. intros dev Hin.
  apply (decoded_text_has_no_separator twoDevices decodedTwoDevices dev);
    [vm_compute; reflexivity|exact Hin].
Defined.

(** X7.  The hardware address of a decoded device has 6, 8 or 20 bytes,
    the lengths [net.ParseMAC] accepts; in particular it is not empty. *)
Theorem decoded_mac_length devices devs dev :
  parseDevicesString devices = Ok devs -> dev ∈ devs ->
  length (MAC dev) = 6 \/ length (MAC dev) = 8 \/ length (MAC dev) = 20.
Proof.
  intros E Hin. destruct (decoded_from _ _ _ E Hin) as (devStr & _ & Hd).
  apply parseDevice_inr in Hd as (_ & Hmac & _).
  apply (ParseMAC_length _ _ Hmac).
Qed.

Lemma decoded_mac_length_witness :
  Forall (fun dev => length (MAC dev) = 6 \/ length (MAC dev) = 8 \/
                     length (MAC dev) = 20) decodedTwoDevices.
Proof.
  apply Forall_forall. intros dev Hin.
  apply (decoded_mac_length twoDevices decodedTwoDevices dev);
    [vm_compute; reflexivity|exact Hin].
Defined.

(** X8.  Decoding preserves the order and the positions: the device at
    index [i] is made of the device substring at index [i], with field 1
    as IP, field 2 as name, field 3 as hardware address, field 4 as type,
    field 5 as signal and field 6 as link rate. *)
Theorem decode_preserves_order devices devs i devStr :
  parseDevicesString devices = Ok devs ->
  devStrsOf devices !! i = Some devStr ->
  exists dev,
    devs !! i = Some dev /\
    IP dev = Net.ParseIP (field 1 devStr) /\
    Name dev = field 2 devStr /\
    Net.ParseMAC (field 3 devStr) = inr (MAC dev) /\
    Type_ dev = field 4 devStr /\
    Signal dev = fst (Strconv.Atoi (field 5 devStr)) /\
    LinkRate dev = fst (Strconv.Atoi (field 6 devStr)).
Proof.
  intros E Hi. apply parseDevicesString_Ok in E as [_ E].
  apply decodeAll_Forall2 in E.
  destruct (Forall2_lookup_l _ _ _ _ _ E Hi) as (dev & Hdev & Hd).
  exists dev. split; [exact Hdev|].
  apply parseDevice_inr in Hd. tauto.
Qed.

Lemma decode_preserves_order_witness :
  exists dev,
    decodedTwoDevices !! 1 = Some dev /\
    IP dev = Net.ParseIP "10.0.0.3" /\ Name dev = "tv" /\
    Net.ParseMAC "bb:bb:bb:bb:bb:bb" = inr (MAC dev) /\ Type_ dev = "eth" /\
    Signal dev = 0%Z /\ LinkRate dev = 0%Z.
Proof.
  apply (decode_preserves_order twoDevices decodedTwoDevices 1
           "0;10.0.0.3;tv;bb:bb:bb:bb:bb:bb;eth;;;x");
    vm_compute; reflexivity.
Defined.

End DecoderMore.

(** ** More about the snapshot differ *)

Section DifferMore.

Implicit Types (dev : AttachedDevice) (old new devices : list AttachedDevice).
Implicit Types (diff : gmap string bool) (change changes : list ChangedDevice).
Implicit Types (k : string) (known : gset string).

Lemma count_cons k dev devices :
  count k (dev :: devices) =
    (if decide (key dev = k) then 1 else 0) + count k devices.
Proof.
  unfold count. rewrite filter_cons. destruct (decide (key dev = k)); reflexivity.
Qed.

Lemma count_pos k devices : k ∈ keys devices <-> 0 < count k devices.
Proof.
  split.
  - induction devices as [|dev l IH]; simpl; [inversion 1|].
    rewrite count_cons. intros [->|Hin]%elem_of_cons.
    + rewrite decide_True by reflexivity. lia.
    + specialize (IH Hin). lia.
  - intros Hpos. destruct (decide (k ∈ keys devices)) as [|Hno]; [assumption|].
    rewrite (count_absent _ _ Hno) in Hpos. lia.
Qed.

Lemma count_le_1_NoDup devices :
  (forall k, count k devices <= 1) -> NoDup (keys devices).
Proof.
  induction devices as [|dev l IH]; simpl; intros Hle; constructor.
  - intros Hin. apply count_pos in Hin. specialize (Hle (key dev)).
    rewrite count_cons, decide_True in Hle by reflexivity. lia.
  - apply IH. intros k. specialize (Hle k). rewrite count_cons in Hle. lia.
Qed.

Lemma filter_none (P : AttachedDevice -> Prop) `{!forall x, Decision (P x)} devices :
  (forall dev, dev ∈ devices -> ~ P dev) -> filter P devices = [].
Proof.
  induction devices as [|dev l IH]; intros Hno; [reflexivity|].
  rewrite filter_cons_False by (apply Hno; left).
  apply IH. intros d Hd. apply Hno. right. exact Hd.
Qed.

(** The [Added] changes of the second loop, key by key: every new device
    of that key, but for the first one when the map holds the key. *)
Lemma findAdded_events new : forall diff k,
  events DeviceAdded k (findAdded new diff []).2 =
    count k new - (if decide (k ∈ dom diff) then 1 else 0).
Proof.
  induction new as [|dev new IH]; intros diff k; simpl; [reflexivity|].
  rewrite count_cons. destruct (diff !! key dev) eqn:E.
  - rewrite IH, dom_delete_L.
    assert (Hin : key dev ∈ dom diff) by (apply elem_of_dom; eauto).
    destruct (decide (key dev = k)) as [<-|Hne].
    + rewrite decide_False by set_solver. rewrite decide_True by assumption. lia.
    + destruct (decide (k ∈ dom diff ∖ {[key dev]})) as [H|H],
               (decide (k ∈ dom diff)) as [H'|H']; try lia; exfalso; set_solver.
  - rewrite findAdded_acc. cbn [snd]. rewrite events_app, IH.
    apply not_elem_of_dom in E.
    change [{| Device := dev; Change := DeviceAdded |}] with (map added [dev]).
    rewrite events_added, decide_True by reflexivity.
    rewrite count_cons, Nat.add_0_r.
    destruct (decide (key dev = k)) as [<-|Hne]; [|reflexivity].
    rewrite decide_False by assumption. lia.
Qed.

(** The changes of any diff, key by key. *)
Lemma diff_events old new k :
  events DeviceRemoved k (getChangedDevices old new) =
    (if decide (k ∈ keys new) then 0 else count k old) /\
  events DeviceAdded k (getChangedDevices old new) =
    count k new - (if decide (k ∈ keys old) then 1 else 0).
Proof.
  unfold getChangedDevices.
  pose proof (findAdded_events new (markOld old ∅) k) as Ha.
  destruct (findAdded_sublist new (markOld old ∅)) as (la & Hla & _).
  pose proof (findAdded_dom new (markOld old ∅) []) as Hdom.
  destruct (findAdded new (markOld old ∅) []) as [diff change]. simpl in *.
  rewrite findRemoved_filter, !events_app, !events_removed. simpl.
  pose proof (count_filter (fun k => k ∈ dom diff) k old) as Er.
  cbv beta in Er. rewrite Er, Ha. clear Er Ha.
  rewrite Hla, events_added. simpl. rewrite Hdom, markOld_dom.
  split.
  - destruct (decide (k ∈ keys new)) as [Hn|Hn].
    + rewrite decide_False by set_solver. reflexivity.
    + destruct (decide (k ∈ keys old)) as [Ho|Ho].
      * rewrite decide_True by set_solver. reflexivity.
      * rewrite (count_absent _ _ Ho). destruct (decide _); reflexivity.
  - rewrite Nat.add_0_r.
    destruct (decide (k ∈ keys old)) as [Ho|Ho].
    + rewrite decide_True by set_solver. reflexivity.
    + rewrite decide_False by set_solver. reflexivity.
Qed.

(** Replaying a change list on a set of keys. *)
Lemma replay_added la : forall known,
  foldl applyChange known (map added la) = list_to_set (keys la) ∪ known.
Proof.
  induction la as [|dev la IH]; intros known; simpl.
  - set_solver.
  - rewrite IH. unfold applyChange. simpl. set_solver.
Qed.

Lemma replay_removed lr : forall known,
  foldl applyChange known (map removed lr) = known ∖ list_to_set (keys lr).
Proof.
  induction lr as [|dev lr IH]; intros known; simpl.
  - set_solver.
  - rewrite IH. unfold applyChange. simpl. set_solver.
Qed.

Lemma replay_changes old new :
  foldl applyChange (list_to_set (keys old)) (getChangedDevices old new) =
    list_to_set (keys new).
Proof.
  destruct (getChangedDevices_shape old new) as (la & _ & E).
  set (lr := filter (fun dev => key dev ∉ keys new) old) in E.
  assert (Hla : forall k, count k la =
                  count k new - (if decide (k ∈ keys old) then 1 else 0)).
  { intros k. destruct (diff_events old new k) as [_ H].
    rewrite E, events_app, events_added, events_removed in H. simpl in H. lia. }
  assert (Hlr : forall k, count k lr =
                  if decide (k ∉ keys new) then count k old else 0).
  { intros k. unfold lr. exact (count_filter (fun k => k ∉ keys new) k old). }
  rewrite E, foldl_app, replay_added, replay_removed.
  apply set_eq. intros k.
  rewrite elem_of_difference, elem_of_union, !elem_of_list_to_set.
  rewrite !count_pos, Hla, Hlr.
  destruct (decide (k ∈ keys old)) as [Ho|Ho], (decide (k ∉ keys new)) as [Hn|Hn];
    rewrite count_pos in Ho; try rewrite count_pos in Hn;
    try (apply dec_stable in Hn; rewrite count_pos in Hn); lia.
Qed.

(** *** Properties of the differ *)

(** X9.  For any two snapshots, also with a MAC reported twice: a key
    that some new device has gets no [Removed] change, any other key gets
    one [Removed] change for each old device that has it. *)
Theorem removed_events_of_any_diff old new k :
  events DeviceRemoved k (getChangedDevices old new) =
    if decide (k ∈ keys new) then 0 else count k old.
Proof. apply diff_events. Qed.

(** X10.  For any two snapshots, also with a MAC reported twice: a key
    that no old device has gets one [Added] change for each new device
    that has it; a key that some old device has gets one for each new
    device that has it but the first. *)
Theorem added_events_of_any_diff old new k :
  events DeviceAdded k (getChangedDevices old new) =
    count k new - (if decide (k ∈ keys old) then 1 else 0).
Proof. apply diff_events. Qed.

(** X11.  No diff holds both an [Added] and a [Removed] change for the
    same key. *)
Theorem never_added_and_removed old new k :
  events DeviceAdded k (getChangedDevices old new) = 0 \/
  events DeviceRemoved k (getChangedDevices old new) = 0.
Proof.
  destruct (diff_events old new k) as [-> ->].
  destruct (decide (k ∈ keys new)) as [|Hno]; [right; reflexivity|].
  left. rewrite (count_absent _ _ Hno). reflexivity.
Qed.

(** X12.  The differ returns no change exactly when the two snapshots
    have the same keys and the new one has none twice. *)
Theorem diff_is_empty_iff old new :
  getChangedDevices old new = [] <->
  (forall k, k ∈ keys old <-> k ∈ keys new) /\ NoDup (keys new).
Proof.
  split.
  - intros E.
    assert (H : forall k,
              (if decide (k ∈ keys new) then 0 else count k old) = 0 /\
              count k new - (if decide (k ∈ keys old) then 1 else 0) = 0).
    { intros k. destruct (diff_events old new k) as [<- <-].
      rewrite E. split; reflexivity. }
    split.
    + intros k. destruct (H k) as [Hr Ha].
      pose proof (count_pos k old) as Po. pose proof (count_pos k new) as Pn.
      destruct (decide (k ∈ keys new)), (decide (k ∈ keys old)); intuition lia.
    + apply count_le_1_NoDup. intros k. destruct (H k) as [_ Ha].
      destruct (decide (k ∈ keys old)); lia.
  - intros [Hsame Hnd]. rewrite (getChangedDevices_NoDup _ _ Hnd).
    rewrite !filter_none; [reflexivity| |];
      intros dev Hdev Hno; apply Hno, Hsame, key_in_keys, Hdev.
Qed.

(** X13.  The changes of a diff, replayed in order on the set of the old
    snapshot's keys (adding the key of an [Added] change, dropping the
    key of a [Removed] one), give the set of the new snapshot's keys. *)
Theorem changes_replay_to_new_keys old new :
  foldl applyChange (list_to_set (keys old)) (getChangedDevices old new) =
    list_to_set (keys new).
Proof. apply replay_changes. Qed.

(** X14.  For two snapshots without a key twice, the diff in the other
    direction swaps the roles: the devices added from [old] to [new] are
    the devices removed from [new] to [old], and the other way round. *)
Theorem diff_reversed_swaps old new :
  NoDup (keys old) -> NoDup (keys new) ->
  exists la lr,
    getChangedDevices old new = map added la ++ map removed lr /\
    getChangedDevices new old = map added lr ++ map removed la.
Proof.
  intros Hold Hnew.
  exists (filter (fun dev => key dev ∉ keys old) new),
         (filter (fun dev => key dev ∉ keys new) old).
  split; apply getChangedDevices_NoDup; assumption.
Qed.

Lemma diff_reversed_swaps_witness :
  exists la lr,
    getChangedDevices [deviceA; deviceB] [deviceB; deviceC] =
      map added la ++ map removed lr /\
    getChangedDevices [deviceB; deviceC] [deviceA; deviceB] =
      map added lr ++ map removed la.
Proof.
  apply (diff_reversed_swaps [deviceA; deviceB] [deviceB; deviceC]);
    vm_compute; repeat constructor; set_solver.
Defined.

End DifferMore.

(** ** More about the polling engine *)

Section EngineMore.

Implicit Types (devices : list AttachedDevice) (calls : list Call).
Implicit Types (poll : Poll) (ticks : list Poll) (known : gset string).

(** After a panic the goroutine is gone: no tick does anything. *)
Lemma watcher_Panicked ticks : forall calls,
  watcher (Panicked calls) ticks = Panicked calls.
Proof.
  induction ticks as [|poll ticks IH]; intros calls; [reflexivity|].
  unfold watcher in *. simpl. apply IH.
Qed.

Lemma watcher_cons w poll ticks :
  watcher w (poll :: ticks) = watcher (tick w poll) ticks.
Proof. reflexivity. Qed.

Lemma short_input_panics (payload : string) :
  String.length payload < 2 -> parseDevicesString payload = Panic.
Proof.
  intros Hlt. unfold parseDevicesString.
  destruct (Nat.ltb_spec (String.length payload) 2); [reflexivity|lia].
Qed.

Lemma replay_calls changes : forall known,
  foldl applyCall known (map Changed changes) = foldl applyChange known changes.
Proof.
  induction changes as [|c changes IH]; intros known; simpl; [reflexivity|].
  apply IH.
Qed.

(** What the calls made so far add up to is the baseline. *)
Lemma watcher_replay ticks : forall devices calls devices' calls',
  foldl applyCall ∅ calls = list_to_set (keys devices) ->
  watcher (Watching devices calls) ticks = Watching devices' calls' ->
  foldl applyCall ∅ calls' = list_to_set (keys devices').
Proof.
  induction ticks as [|poll ticks IH]; intros devices calls devices' calls' Hinv.
  - intros [= <- <-]. exact Hinv.
  - rewrite watcher_cons. simpl.
    destruct (getDevices poll) as [updated|err|].
    + apply IH. rewrite foldl_app, Hinv, replay_calls. apply replay_changes.
    + apply IH. rewrite foldl_app. exact Hinv.
    + rewrite watcher_Panicked. discriminate.
Qed.

Lemma printed_failures errs : printed (map Failed errs) = "".
Proof.
  unfold printed. induction errs as [|err errs IH]; [reflexivity|exact IH].
Qed.

(** A fetched snapshot has a device in it: the decoder returns no empty
    list. *)
Lemma getDevices_nonempty poll devices :
  getDevices poll = Ok devices -> devices <> [].
Proof.
  unfold getDevices. destruct (Login (loginReply poll)); [discriminate|].
  destruct (devicesReply poll) as [cause|cause|respCode payload]; simpl;
    try discriminate.
  destruct (negb (respCode =? 0)%Z); [discriminate|].
  intros E. apply parseDevicesString_Ok in E as [_ E].
  apply decodeAll_length in E. unfold devStrsOf in E.
  rewrite Split_length in E. intros ->. discriminate.
Qed.

Lemma watcher_ends_empty ticks : forall devices calls calls',
  watcher (Watching devices calls) ticks = Watching [] calls' ->
  devices = [] /\
  Forall (fun poll => exists err, getDevices poll = Err err) ticks.
Proof.
  induction ticks as [|poll ticks IH]; intros devices calls calls'.
  - intros [= -> _]. split; [reflexivity|constructor].
  - rewrite watcher_cons. simpl.
    destruct (getDevices poll) as [updated|err|] eqn:E.
    + intros Hw. destruct (IH _ _ _ Hw) as [-> _].
      destruct (getDevices_nonempty _ _ E). reflexivity.
    + intros Hw. destruct (IH _ _ _ Hw) as [-> Hf].
      split; [reflexivity|]. constructor; [eauto|exact Hf].
    + rewrite watcher_Panicked. discriminate.
Qed.

(** *** Properties of the engine *)

(** X15.  One answer that passes the login and carries response code 0
    with a device string of fewer than two bytes ends the watcher: the
    decoder panics, the listener is not called for that tick, and no later
    tick calls it again. *)
Theorem short_payload_stops_watcher devices calls poll payload ticks :
  Login (loginReply poll) = None ->
  devicesReply poll = Envelope 0 payload ->
  String.length payload < 2 ->
  watcher (Watching devices calls) (poll :: ticks) = Panicked calls.
Proof.
  intros Hlogin Hreply Hlt. rewrite watcher_cons.
  assert (Hp : getDevices poll = Panic).
  { unfold getDevices. rewrite Hlogin, Hreply. simpl.
    apply short_input_panics, Hlt. }
  simpl. rewrite Hp. apply watcher_Panicked.
Qed.

Lemma short_payload_stops_watcher_witness :
  watcher (Watching [deviceA] []) [answers ""; answers twoDevices; loginRefused] =
    Panicked [].
Proof.
  apply (short_payload_stops_watcher [deviceA] [] (answers "") "").
  - reflexivity.
  - reflexivity.
  - simpl; lia.
Defined.

(** X16.  A tick panics in no other case: fetching the devices panics
    exactly when the login succeeds and the answer to the device request
    has response code 0 and a device string of fewer than two bytes. *)
Theorem getDevices_panics_iff poll :
  getDevices poll = Panic <->
  Login (loginReply poll) = None /\
  exists payload,
    devicesReply poll = Envelope 0 payload /\ String.length payload < 2.
Proof.
  unfold getDevices. destruct (Login (loginReply poll)) as [err|].
  - split; [discriminate|]. intros [? _]. discriminate.
  - destruct (devicesReply poll) as [cause|cause|respCode payload]; simpl.
    + split; [discriminate|]. intros (_ & ? & ? & _). discriminate.
    + split; [discriminate|]. intros (_ & ? & ? & _). discriminate.
    + destruct (Z.eqb_spec respCode 0) as [->|Hne]; simpl.
      * split.
        -- intros Hp. split; [reflexivity|]. exists payload. split; [reflexivity|].
           destruct (Nat.lt_ge_cases (String.length payload) 2) as [|Hge];
             [assumption|].
           rewrite parseDevicesString_decodeAll in Hp by assumption.
           destruct (decodeAll _); discriminate.
        -- intros (_ & payload' & [= <-] & Hlt). apply short_input_panics, Hlt.
      * split; [discriminate|]. intros (_ & ? & [= ? _] & _). contradiction.
Qed.

(** X17.  While the watcher runs, a listener that starts from no key,
    adds the key of every [Added] change and drops the key of every
    [Removed] one holds, after any number of ticks, exactly the keys of
    the watcher's baseline. *)
Theorem calls_replay_to_baseline_keys ticks devices calls :
  OnDeviceChanged ticks = Watching devices calls ->
  foldl applyCall ∅ calls = list_to_set (keys devices).
Proof.
  unfold OnDeviceChanged. apply watcher_replay. reflexivity.
Qed.

Lemma calls_replay_to_baseline_keys_witness :
  exists calls,
    OnDeviceChanged [answers twoDevices; fetchRefused] =
      Watching decodedTwoDevices calls /\
    foldl applyCall ∅ calls = list_to_set (keys decodedTwoDevices).
Proof.
  eexists. split; [vm_compute; reflexivity|].
  apply (calls_replay_to_baseline_keys [answers twoDevices; fetchRefused]).
  vm_compute; reflexivity.
Defined.

Lemma baseline_is_last_fetched_witness :
  decodedTwoDevices =
    lastFetched [loginRefused; answers twoDevices; fetchRefused].
Proof.
  eapply (baseline_is_last_fetched
            [loginRefused; answers twoDevices; fetchRefused]).
  vm_compute; reflexivity.
Defined.

(** X19.  The command's listener drops errors: a run in which every tick
    fails (a wrong password, a router that is down) prints nothing. *)
Theorem failures_print_nothing failures :
  Forall (fun poll => exists err, getDevices poll = Err err) failures ->
  printed (calls (OnDeviceChanged failures)) = "".
Proof.
  intros Hf. unfold OnDeviceChanged.
  destruct (watcher_failures failures [] [] Hf) as (errs & _ & ->).
  simpl. apply printed_failures.
Qed.

Lemma failures_print_nothing_witness :
  printed (calls (OnDeviceChanged [loginRefused; fetchRefused; loginRefused])) = "".
Proof.
  apply (failures_print_nothing [loginRefused; fetchRefused; loginRefused]).
  repeat constructor; eexists; vm_compute; reflexivity.
Defined.

(** X20.  No fetched snapshot is empty, so the running watcher's baseline
    is empty exactly when every tick so far has failed with an error: once
    a snapshot has been fetched the engine never again holds, or diffs
    against, an empty device list. *)
Theorem baseline_empty_iff_no_fetch ticks :
  (exists calls, OnDeviceChanged ticks = Watching [] calls) <->
  Forall (fun poll => exists err, getDevices poll = Err err) ticks.
Proof.
  unfold OnDeviceChanged. split.
  - intros [calls Hw]. apply (watcher_ends_empty _ _ _ _ Hw).
  - intros Hf. destruct (watcher_failures ticks [] [] Hf) as (errs & _ & ->).
    eauto.
Qed.

End EngineMore.
